(** * Google-Translate-CLI: the translation command line tool of [src/index.ts]

    A shallow embedding of the [Translate] class: the option validator
    [verifyString], the actions [run], [translate], [to] and [translateFile]
    (with its inner [resolveMessages] / [resolvePaths] walk, the batch
    message it sends to the translation backend and the loop that puts the
    answer back into an object), followed by the properties of the
    structured-document pipeline.

    Conventions of the model.
    - A JavaScript string is a [string]; its characters stand for code units
      below 256.
    - An object is the list of its entries in the order [Object.entries]
      gives them; a new key goes to the end.  The engine keeps integer-like
      keys in front, in ascending order; this is not modelled, and the
      properties below do not depend on it (the rebuild sets the keys of a
      mapping in the order in which the extraction met them).
    - A thrown exception is an [Err] result; an [async] function is the
      function of its sequential steps (the program never has two
      operations in flight).
    - The outside world an action can touch (the local database, the files,
      the calls made to the translation backend, the console) is a [World]
      threaded through the actions. *)

From Stdlib Require Import String Ascii List Arith Lia Bool.
From Stdlib Require Decimal DecimalNat DecimalString.
Import ListNotations.
Open Scope list_scope.
Open Scope string_scope.

(** ** Strings *)

Module Str.

(** The double quote character. *)
Definition quote : ascii := "034"%char.

Definition truthy (s : string) : bool :=
  match s with EmptyString => false | String _ _ => true end.

Fixpoint drop (n : nat) (s : string) : string :=
  match n, s with
  | 0, _ => s
  | S _, EmptyString => EmptyString
  | S k, String _ t => drop k t
  end.

(** [cut sep s] looks for the first occurrence of [sep] in [s] (as
    [indexOf] does) and returns the text before it and the text after it. *)
Fixpoint cut (sep s : string) : option (string * string) :=
  if prefix sep s then Some (EmptyString, drop (String.length sep) s)
  else match s with
       | EmptyString => None
       | String c t =>
           match cut sep t with
           | Some (a, b) => Some (String c a, b)
           | None => None
           end
       end.

Fixpoint split_fuel (fuel : nat) (sep s : string) : list string :=
  match fuel with
  | 0 => [s]
  | S f =>
      match cut sep s with
      | None => [s]
      | Some (a, b) => a :: split_fuel f sep b
      end
  end.

(** [String.prototype.split] with a non-empty separator and no limit: the
    pieces between the successive occurrences of [sep], scanning from the
    left.  Every cut consumes at least one character, so [length s] rounds
    are enough. *)
Definition split (sep s : string) : list string :=
  split_fuel (String.length s) sep s.

(** [Array.prototype.join]. *)
Definition join (sep : string) (l : list string) : string :=
  String.concat sep l.

(** [String.prototype.includes]. *)
Definition includes (sub s : string) : bool :=
  match cut sub s with Some _ => true | None => false end.

(** [`${n}`] for a non-negative integer. *)
Definition of_nat (n : nat) : string :=
  DecimalString.NilEmpty.string_of_uint (Nat.to_uint n).

(** The integer a property key denotes when it is an array index: the key
    has to be the canonical decimal numeral of the integer. *)
Definition array_index (key : string) : option nat :=
  match DecimalString.NilEmpty.uint_of_string key with
  | Some d =>
      let n := Nat.of_uint d in
      if (of_nat n =? key)%string then Some n else None
  | None => None
  end.

End Str.

(** [arr[key]] for a property key given as a string: an element when the
    key is an index inside the array, [undefined] ([None]) when there is no
    such element. *)
Definition array_get {A : Type} (arr : list A) (key : string) : option A :=
  match Str.array_index key with
  | Some n => nth_error arr n
  | None => None
  end.

(** [arr.at(-1)]. *)
Definition at_last (l : list string) : option string :=
  match rev l with
  | [] => None
  | x :: _ => Some x
  end.

(** [arr.pop()], the removed element only. *)
Definition pop (l : list string) : option string := at_last l.

(** ** JSON values *)

#[local] Unset Elimination Schemes.

Inductive json : Type :=
| JNull
| JBool (b : bool)
| JNumber (literal : string)
| JString (s : string)
| JArray (items : list json)
| JObject (entries : list (string * json)).

#[local] Set Elimination Schemes.

Definition object := list (string * json).

Fixpoint obj_get (key : string) (o : object) : option json :=
  match o with
  | [] => None
  | (k, v) :: r => if (k =? key)%string then Some v else obj_get key r
  end.

(** [o[key] = value]: an existing property keeps its place. *)
Fixpoint obj_set (key : string) (value : json) (o : object) : object :=
  match o with
  | [] => [(key, value)]
  | (k, v) :: r =>
      if (k =? key)%string then (k, value) :: r
      else (k, v) :: obj_set key value r
  end.

Definition obj_keys (o : object) : list string := map fst o.

(** ** The JSON builtins

    [JSON.stringify] and [JSON.parse] of the engine, on the values above.
    A number is carried as its literal. *)

Module JSON.

Definition hex_digit (n : nat) : ascii :=
  nth n ["0"; "1"; "2"; "3"; "4"; "5"; "6"; "7"; "8"; "9";
         "a"; "b"; "c"; "d"; "e"; "f"]%char "0"%char.

Definition hex_value (c : ascii) : option nat :=
  let n := nat_of_ascii c in
  if Nat.leb 48 n && Nat.leb n 57 then Some (n - 48)
  else if Nat.leb 97 n && Nat.leb n 102 then Some (n - 87)
  else if Nat.leb 65 n && Nat.leb n 70 then Some (n - 55)
  else None.

(** One character inside a string literal, as [JSON.stringify] writes it. *)
Definition quote_char (c : ascii) : string :=
  let n := nat_of_ascii c in
  if (c =? Str.quote)%char then String "\" (String Str.quote "")
  else if (c =? "\")%char then "\\"
  else if Nat.eqb n 8 then "\b"
  else if Nat.eqb n 9 then "\t"
  else if Nat.eqb n 10 then "\n"
  else if Nat.eqb n 12 then "\f"
  else if Nat.eqb n 13 then "\r"
  else if Nat.ltb n 32 then
    "\u00" ++ String (hex_digit (n / 16)) (String (hex_digit (n mod 16)) "")
  else String c "".

Fixpoint quote_chars (s : string) : string :=
  match s with
  | EmptyString => EmptyString
  | String c t => quote_char c ++ quote_chars t
  end.

Definition quote_string (s : string) : string :=
  String Str.quote (quote_chars s ++ String Str.quote "").

(** [JSON.stringify(value)]. *)
Fixpoint stringify (v : json) : string :=
  match v with
  | JNull => "null"
  | JBool true => "true"
  | JBool false => "false"
  | JNumber literal => literal
  | JString s => quote_string s
  | JArray items => "[" ++ Str.join "," (map stringify items) ++ "]"
  | JObject entries =>
      "{" ++ Str.join ","
               (map (fun kv : string * json => let (k, x) := kv in
                               quote_string k ++ ":" ++ stringify x) entries)
          ++ "}"
  end.

Definition newline : string := String "010"%char "".

(** [JSON.stringify(value, null, 4)] at the indentation [ind]. *)
Fixpoint stringify_indent (ind : string) (v : json) : string :=
  let ind' := ind ++ "    " in
  match v with
  | JArray [] => "[]"
  | JArray items =>
      "[" ++ newline ++ ind'
          ++ Str.join ("," ++ newline ++ ind') (map (stringify_indent ind') items)
          ++ newline ++ ind ++ "]"
  | JObject [] => "{}"
  | JObject entries =>
      "{" ++ newline ++ ind'
          ++ Str.join ("," ++ newline ++ ind')
               (map (fun kv : string * json => let (k, x) := kv in
                               quote_string k ++ ": " ++ stringify_indent ind' x)
                    entries)
          ++ newline ++ ind ++ "}"
  | _ => stringify v
  end.

Definition stringify4 (v : json) : string := stringify_indent "" v.

(** *** Parsing *)

Definition is_ws (c : ascii) : bool :=
  let n := nat_of_ascii c in
  Nat.eqb n 32 || Nat.eqb n 9 || Nat.eqb n 10 || Nat.eqb n 13.

Fixpoint skip_ws (s : string) : string :=
  match s with
  | String c t => if is_ws c then skip_ws t else s
  | EmptyString => s
  end.

Definition is_digit (c : ascii) : bool :=
  let n := nat_of_ascii c in Nat.leb 48 n && Nat.leb n 57.

Fixpoint span_digits (s : string) : string * string :=
  match s with
  | String c t =>
      if is_digit c then let (d, r) := span_digits t in (String c d, r)
      else (EmptyString, s)
  | EmptyString => (EmptyString, s)
  end.

Definition push (c : ascii) (r : option (string * string))
  : option (string * string) :=
  match r with
  | Some (d, rest) => Some (String c d, rest)
  | None => None
  end.

Definition hex4 (a b c d : ascii) : option nat :=
  match hex_value a, hex_value b, hex_value c, hex_value d with
  | Some x, Some y, Some z, Some w => Some (((x * 16 + y) * 16 + z) * 16 + w)
  | _, _, _, _ => None
  end.

(** The characters of a string literal after its opening quote, up to the
    closing quote: the decoded text and what follows the literal.  An
    escape that names a code unit above 255 is outside the model. *)
Fixpoint parse_chars (s : string) : option (string * string) :=
  match s with
  | EmptyString => None
  | String c t =>
      if (c =? Str.quote)%char then Some (EmptyString, t)
      else if (c =? "\")%char then
        match t with
        | String e t' =>
            if (e =? Str.quote)%char then push Str.quote (parse_chars t')
            else if (e =? "\")%char then push "\"%char (parse_chars t')
            else if (e =? "/")%char then push "/"%char (parse_chars t')
            else if (e =? "b")%char then push "008"%char (parse_chars t')
            else if (e =? "f")%char then push "012"%char (parse_chars t')
            else if (e =? "n")%char then push "010"%char (parse_chars t')
            else if (e =? "r")%char then push "013"%char (parse_chars t')
            else if (e =? "t")%char then push "009"%char (parse_chars t')
            else if (e =? "u")%char then
              match t' with
              | String h1 (String h2 (String h3 (String h4 t''))) =>
                  match hex4 h1 h2 h3 h4 with
                  | Some code =>
                      if Nat.ltb code 256
                      then push (ascii_of_nat code) (parse_chars t'')
                      else None
                  | None => None
                  end
              | _ => None
              end
            else None
        | EmptyString => None
        end
      else if Nat.ltb (nat_of_ascii c) 32 then None
      else push c (parse_chars t)
  end.

(** A number literal: an optional minus sign; zero, or a non-zero digit and
    more digits; an optional fraction (a dot and digits); an optional
    exponent (e or E, an optional sign, digits). *)
Definition parse_number (s : string) : option (string * string) :=
  let (sign, s1) :=
    match s with
    | String "-" t => ("-", t)
    | _ => ("", s)
    end in
  let int_part :=
    match s1 with
    | String "0" t => Some ("0", t)
    | String c t =>
        if is_digit c then let (d, r) := span_digits t in Some (String c d, r)
        else None
    | EmptyString => None
    end in
  match int_part with
  | None => None
  | Some (i, s2) =>
      let frac_part :=
        match s2 with
        | String "." t =>
            match span_digits t with
            | (EmptyString, _) => None
            | (d, r) => Some ("." ++ d, r)
            end
        | _ => Some ("", s2)
        end in
      match frac_part with
      | None => None
      | Some (f, s3) =>
          let exp_of (e : ascii) (t : string) :=
            let (sg, t1) :=
              match t with
              | String "+" u => ("+", u)
              | String "-" u => ("-", u)
              | _ => ("", t)
              end in
            match span_digits t1 with
            | (EmptyString, _) => None
            | (d, r) => Some (String e (sg ++ d), r)
            end in
          let exp_part :=
            match s3 with
            | String "e" t => exp_of "e"%char t
            | String "E" t => exp_of "E"%char t
            | _ => Some ("", s3)
            end in
          match exp_part with
          | None => None
          | Some (x, s4) => Some (sign ++ i ++ f ++ x, s4)
          end
      end
  end.

(** Building an object from its members in source order: a repeated key
    keeps its first place and takes its last value. *)
Definition obj_of_members (members : list (string * json)) : object :=
  fold_left (fun o kv => obj_set (fst kv) (snd kv) o) members [].

Fixpoint parse_value (fuel : nat) (s : string) {struct fuel}
  : option (json * string) :=
  match fuel with
  | 0 => None
  | S f =>
      match skip_ws s with
      | String "n" (String "u" (String "l" (String "l" r))) => Some (JNull, r)
      | String "t" (String "r" (String "u" (String "e" r))) =>
          Some (JBool true, r)
      | String "f" (String "a" (String "l" (String "s" (String "e" r)))) =>
          Some (JBool false, r)
      | String "[" t =>
          match skip_ws t with
          | String "]" r => Some (JArray [], r)
          | _ =>
              match parse_items f t with
              | Some (items, r) => Some (JArray items, r)
              | None => None
              end
          end
      | String "{" t =>
          match skip_ws t with
          | String "}" r => Some (JObject [], r)
          | _ =>
              match parse_members f t with
              | Some (members, r) => Some (JObject (obj_of_members members), r)
              | None => None
              end
          end
      | String c t as s' =>
          if (c =? Str.quote)%char then
            match parse_chars t with
            | Some (str, r) => Some (JString str, r)
            | None => None
            end
          else
            match parse_number s' with
            | Some (literal, r) => Some (JNumber literal, r)
            | None => None
            end
      | EmptyString => None
      end
  end

with parse_items (fuel : nat) (s : string) {struct fuel}
  : option (list json * string) :=
  match fuel with
  | 0 => None
  | S f =>
      match parse_value f s with
      | Some (v, r) =>
          match skip_ws r with
          | String "," r' =>
              match parse_items f r' with
              | Some (vs, r'') => Some (v :: vs, r'')
              | None => None
              end
          | String "]" r' => Some ([v], r')
          | _ => None
          end
      | None => None
      end
  end

with parse_members (fuel : nat) (s : string) {struct fuel}
  : option (list (string * json) * string) :=
  match fuel with
  | 0 => None
  | S f =>
      match skip_ws s with
      | String c t =>
          if (c =? Str.quote)%char then
            match parse_chars t with
            | Some (k, r) =>
                match skip_ws r with
                | String ":" r1 =>
                    match parse_value f r1 with
                    | Some (v, r2) =>
                        match skip_ws r2 with
                        | String "," r3 =>
                            match parse_members f r3 with
                            | Some (ms, r4) => Some ((k, v) :: ms, r4)
                            | None => None
                            end
                        | String "}" r3 => Some ([(k, v)], r3)
                        | _ => None
                        end
                    | None => None
                    end
                | _ => None
                end
            | None => None
            end
          else None
      | EmptyString => None
      end
  end.

(** [JSON.parse(text)]: [None] stands for the [SyntaxError]. *)
Definition parse (text : string) : option json :=
  match parse_value (S (String.length text)) text with
  | Some (v, r) =>
      match skip_ws r with
      | EmptyString => Some v
      | String _ _ => None
      end
  | None => None
  end.

End JSON.

(** ** The world around the program *)

Inductive error : Type :=
| InvalidArgumentError (message : string)
| TypeError
| SyntaxError
| BackendError.

Inductive result (A : Type) : Type :=
| Ok (a : A)
| Err (e : error).

Arguments Ok {A} a.
Arguments Err {A} e.

(** The local database: [db.get('defaultLanguage')] and the two parallel
    lists under ['languages/longName'] and ['languages/shortName']. *)
Record Database : Type := mkDatabase {
  defaultLanguage : option string;
  longName : list string;
  shortName : list string
}.

Record World : Type := mkWorld {
  db : Database;
  files : list (string * string);
  calls : list (string * string);
  console : list string;
  opened : list string
}.

Definition db_set_defaultLanguage (language : string) (w : World) : World :=
  mkWorld (mkDatabase (Some language) (longName (db w)) (shortName (db w)))
          (files w) (calls w) (console w) (opened w).

Definition console_log (line : string) (w : World) : World :=
  mkWorld (db w) (files w) (calls w) (console w ++ [line])%list (opened w).

Definition open_url (url : string) (w : World) : World :=
  mkWorld (db w) (files w) (calls w) (console w) (opened w ++ [url])%list.

Fixpoint lookup_file (path : string) (fs : list (string * string))
  : option string :=
  match fs with
  | [] => None
  | (p, c) :: r => if (p =? path)%string then Some c else lookup_file path r
  end.

(** [isFile(path)] of bucky.js. *)
Definition isFile (path : string) (w : World) : bool :=
  match lookup_file path (files w) with Some _ => true | None => false end.

Definition readFile (path : string) (w : World) : option string :=
  lookup_file path (files w).

Definition writeFile (path content : string) (w : World) : World :=
  mkWorld (db w) ((path, content) :: files w) (calls w) (console w) (opened w).

(** ** Leaf records and the object manager *)

Record LeafRecord : Type := mkLeaf {
  path : string;
  text : json
}.

(** [currentPath ? currentPath + '/' + key : key]; [None] is the missing
    argument of the outermost call. *)
Definition child_path (currentPath : option string) (key : string) : string :=
  match currentPath with
  | Some p => if Str.truthy p then p ++ "/" ++ key else key
  | None => key
  end.

(** One turn of the loop of [resolvePaths], for the entry [key], [value];
    the records it pushes to [messages], in order. *)
Fixpoint resolveEntry (currentPath : option string) (key : string)
    (value : json) {struct value} : list LeafRecord :=
  match value with
  | JString s =>
      if Str.truthy s then [mkLeaf (child_path currentPath key) value] else []
  | JArray items =>
      match items with
      | [] => []
      | _ :: _ => [mkLeaf (child_path currentPath key) value]
      end
  | JObject entries =>
      match entries with
      | [] => []
      | _ :: _ =>
          flat_map (fun kv : string * json =>
                      let (k, v) := kv in
                      resolveEntry (Some (child_path currentPath key)) k v)
                   entries
      end
  | _ => []
  end.

Definition resolvePaths (obj : object) (currentPath : option string)
  : list LeafRecord :=
  flat_map (fun kv : string * json =>
              let (k, v) := kv in resolveEntry currentPath k v) obj.

Fixpoint indexed {A : Type} (i : nat) (l : list A) : list (nat * A) :=
  match l with
  | [] => []
  | x :: r => (i, x) :: indexed (S i) r
  end.

Fixpoint chars (s : string) : list json :=
  match s with
  | EmptyString => []
  | String c t => JString (String c "") :: chars t
  end.

(** [Object.entries(data)] for whatever [JSON.parse] returned; it throws on
    [null]. *)
Definition Object_entries (data : json) : option object :=
  let keyed (l : list json) :=
    map (fun iv : nat * json => (Str.of_nat (fst iv), snd iv)) (indexed 0 l) in
  match data with
  | JObject entries => Some entries
  | JArray items => Some (keyed items)
  | JString s => Some (keyed (chars s))
  | JNumber _ | JBool _ => Some []
  | JNull => None
  end.

Definition resolveMessages (data : json) : result (list LeafRecord) :=
  match Object_entries data with
  | Some obj => Ok (resolvePaths obj None)
  | None => Err TypeError
  end.

(** Modelled from the spec: [ObjectManager.set] of the object.mn package,
    which is not part of the sources.  It splits the path on ["/"] and sets
    that nested location to the value, creating the intermediate mappings
    that are missing (a non-mapping found on the way is replaced). *)
Fixpoint set_keys (keys : list string) (value : json) (o : object) : object :=
  match keys with
  | [] => o
  | k :: ks =>
      match ks with
      | [] => obj_set k value o
      | _ :: _ =>
          let inner :=
            match obj_get k o with
            | Some (JObject o') => o'
            | _ => []
            end in
          obj_set k (JObject (set_keys ks value inner)) o
      end
  end.

Definition ObjectManager_set (path : string) (value : json) (o : object)
  : object :=
  set_keys (Str.split "/" path) value o.

(** ** The batch message *)

(** [`${index}==${JSON.stringify(text)}`]. *)
Definition token (index : nat) (r : LeafRecord) : string :=
  Str.of_nat index ++ "==" ++ JSON.stringify (text r).

(** [messages.map(({ text }, index) => ...).join('//')]. *)
Definition encode (messages : list LeafRecord) : string :=
  Str.join "//" (map (fun ir => token (fst ir) (snd ir)) (indexed 0 messages)).

(** [text.split('//').map(message => message.split('=='))]. *)
Definition newMessages (translated : string) : list (list string) :=
  map (Str.split "==") (Str.split "//" translated).

(** The body of the [for (let [index, value] of newMessages)] loop:
    [objectMessages.set(messages[index].path, JSON.parse(value))].  The
    pattern takes the first two pieces of the entry; [messages[index]] is
    [undefined] unless [index] is the numeral of a position, and reading
    [.path] of it throws; [JSON.parse] throws on a missing or ill-formed
    [value]. *)
Definition set_message (messages : list LeafRecord) (entry : list string)
    (o : object) : result object :=
  let index := nth_error entry 0 in
  let value := nth_error entry 1 in
  match index with
  | None => Err TypeError
  | Some i =>
      match array_get messages i with
      | None => Err TypeError
      | Some r =>
          match value with
          | None => Err SyntaxError
          | Some v =>
              match JSON.parse v with
              | None => Err SyntaxError
              | Some parsed => Ok (ObjectManager_set (path r) parsed o)
              end
          end
      end
  end.

Fixpoint set_messages (messages : list LeafRecord)
    (entries : list (list string)) (o : object) : result object :=
  match entries with
  | [] => Ok o
  | e :: rest =>
      match set_message messages e o with
      | Ok o' => set_messages messages rest o'
      | Err x => Err x
      end
  end.

(** From the translated batch to [objectMessages.objectData]. *)
Definition rebuild (messages : list LeafRecord) (translated : string)
  : result object :=
  set_messages messages (newMessages translated) [].

(** ** File names *)

Definition file_name (p : string) : string :=
  match at_last (Str.split "/" p) with
  | Some n => n
  | None => "undefined"
  end.

(** [(path.split('/').at(-1))?.split('.').pop()]. *)
Definition file_type (p : string) : option string :=
  pop (Str.split "." (file_name p)).

(** [(path.split('/').at(-1))?.split('.')[0] + '-translated' + ext]. *)
Definition pathTranslated (p ext : string) : string :=
  match nth_error (Str.split "." (file_name p)) 0 with
  | Some stem => stem ++ "-translated" ++ ext
  | None => "undefined-translated" ++ ext
  end.

(** The files the prompt of [translateFile] offers: [excludeFilter] tells
    whether a path is left out.  [/^\.[A-z]/] holds of a component that
    starts with a dot and a character from [A] to [z]; [/\.([^./]+)$/]
    matches the last dot of the path and what follows it, when that is not
    empty and holds no slash. *)
Definition fileTypes : list string := [".json"; ".txt"].

Definition dot_letter (component : string) : bool :=
  match component with
  | String "." (String c _) =>
      Nat.leb 65 (nat_of_ascii c) && Nat.leb (nat_of_ascii c) 122
  | _ => false
  end.

Definition fileType (nodePath : string) : option string :=
  match Str.split "." nodePath with
  | (_ :: _ :: _) as pieces =>
      match at_last pieces with
      | Some e =>
          if Str.truthy e && negb (Str.includes "/" e) then Some ("." ++ e)
          else None
      | None => None
      end
  | _ => None
  end.

Definition excludeFilter (nodePath : string) : bool :=
  if prefix "." nodePath then true
  else if existsb dot_letter (Str.split "/" nodePath) then true
  else if Str.includes "node_modules" nodePath then true
  else
    match fileType nodePath with
    | Some t => negb (existsb (fun x => (x =? t)%string) fileTypes)
    | None => true
    end.

(** ** The actions of the command *)

Record OptionsCommand : Type := mkOptions {
  opt_to : option string;
  opt_languages : bool
}.

(** [Object.keys(options).length]: commander stores only the options that
    were given. *)
Definition options_count (options : OptionsCommand) : nat :=
  (match opt_to options with Some _ => 1 | None => 0 end)
  + (if opt_languages options then 1 else 0).

Definition contains (l : list string) (value : string) : bool :=
  existsb (fun x => (x =? value)%string) l.

(** [verifyString], the argument parser of [--to]. *)
Definition verifyString (d : Database) (value : string) : result string :=
  if negb (contains (longName d) value) && negb (contains (shortName d) value)
  then Err (InvalidArgumentError
    "You provided a non-existent language, use --languages to see available languages")
  else Ok value.

(** [languages()]: one line per long name, with the short name of the same
    position. *)
Definition languages (d : Database) : list string :=
  map (fun il : nat * string =>
         "  " ++ snd il ++ " (" ++ nth (fst il) (shortName d) "undefined" ++ ")")
      (indexed 0 (longName d)).

(** [(options.to ?? this.db.get('defaultLanguage')) ?? 'en']. *)
Definition target_language (explicit : option string) (d : Database) : string :=
  match explicit with
  | Some l => l
  | None =>
      match defaultLanguage d with
      | Some l => l
      | None => "en"
      end
  end.

Section Actions.

(** The translation backend: the text and the target language give the
    translated text, or the call fails. *)
Variable backend : string -> string -> option string.

Definition call_backend (message target : string) (w : World)
  : World * option string :=
  (mkWorld (db w) (files w) (calls w ++ [(message, target)])%list
           (console w) (opened w),
   backend message target).

(** [translate(message, to)]. *)
Definition translate (message : list string) (target : string) (w : World)
  : World * result unit :=
  let (w1, answer) := call_backend (Str.join " " message) target w in
  match answer with
  | Some t => (console_log ("> Translation: " ++ t) w1, Ok tt)
  | None => (w1, Err BackendError)
  end.

(** [run(message, options)], the action of the bare command. *)
Definition run (message : list string) (options : OptionsCommand) (w : World)
  : World * result unit :=
  if opt_languages options then
    (console_log ("Available languages: " ++ JSON.newline
                    ++ Str.join JSON.newline (languages (db w))) w, Ok tt)
  else
    let no_message := match message with [] => true | _ :: _ => false end in
    let to_given :=
      match opt_to options with Some l => Str.truthy l | None => false end in
    if no_message && Nat.eqb (options_count options) 0 then
      (w, Err (InvalidArgumentError "You have not defined any valid arguments!"))
    else if no_message && to_given then
      (w, Err (InvalidArgumentError
        "For you to translate to a specific language, first inform the message!"))
    else translate message (target_language (opt_to options) (db w)) w.

(** [to()]; [language] is the answer of the prompt. *)
Definition to (language : string) (w : World) : World * result unit :=
  let w1 := db_set_defaultLanguage language w in
  (console_log ("! The chosen language (" ++ language
                  ++ ") has been set as default in translations.") w1, Ok tt).

Definition completed (p : string) : string :=
  "! Translation completed successfully, path: " ++ p.

(** The [case 'json'] branch of [translateFile]. *)
Definition translateFile_json (p : string) (w : World) : World * result unit :=
  match readFile p w with
  | None => (w, Err TypeError)
  | Some content =>
      match JSON.parse content with
      | None => (w, Err SyntaxError)
      | Some data =>
          match resolveMessages data with
          | Err e => (w, Err e)
          | Ok messages =>
              let out := pathTranslated p ".json" in
              let message := encode messages in
              let (w1, answer) :=
                call_backend message (target_language None (db w)) w in
              match answer with
              | None => (w1, Err BackendError)
              | Some translated =>
                  match rebuild messages translated with
                  | Err e => (w1, Err e)
                  | Ok objectData =>
                      let w2 :=
                        writeFile out (JSON.stringify4 (JObject objectData)) w1 in
                      (console_log (completed out) w2, Ok tt)
                  end
              end
          end
      end
  end.

(** The [case 'txt'] branch of [translateFile]. *)
Definition translateFile_txt (p : string) (w : World) : World * result unit :=
  match readFile p w with
  | None => (w, Err TypeError)
  | Some content =>
      let (w1, answer) :=
        call_backend content (target_language None (db w)) w in
      match answer with
      | None => (w1, Err BackendError)
      | Some translated =>
          let out := pathTranslated p ".txt" in
          (console_log (completed out) (writeFile out translated w1), Ok tt)
      end
  end.

(** [translateFile()]; [p] is the path picked at the prompt. *)
Definition translateFile (p : string) (w : World) : World * result unit :=
  if negb (isFile p w) then (console_log "! File not found!" w, Ok tt)
  else
    match file_type p with
    | Some ext =>
        if (ext =? "json")%string then translateFile_json p w
        else if (ext =? "txt")%string then translateFile_txt p w
        else (w, Ok tt)
    | None => (w, Ok tt)
    end.

(** What the command line asks for, once commander has split it. *)
Inductive command : Type :=
| Bare (message : list string)
| CmdTo (language : string)
| CmdFile (p : string)
| CmdWeb.

(** [parse(process.argv)]: commander hands the value of [--to] to
    [verifyString] while it reads the options, and runs the action of the
    command only when the options were accepted. *)
Definition parse (to_value : option string) (languages_flag : bool)
    (c : command) (w : World) : World * result unit :=
  let checked :=
    match to_value with
    | Some v =>
        match verifyString (db w) v with
        | Ok v' => Ok (Some v')
        | Err e => Err e
        end
    | None => Ok None
    end in
  match checked with
  | Err e => (w, Err e)
  | Ok given =>
      match c with
      | Bare message => run message (mkOptions given languages_flag) w
      | CmdTo language => to language w
      | CmdFile p => translateFile p w
      | CmdWeb => (open_url "https://translate.google.com/" w, Ok tt)
      end
  end.

End Actions.

(** The structured pipeline of [translateFile] on the parsed document, from
    [resolveMessages] to [objectMessages.objectData], for a backend given
    as a function on the batch message. *)
Definition pipeline (backend : string -> option string) (data : json)
  : result object :=
  match resolveMessages data with
  | Err e => Err e
  | Ok messages =>
      match backend (encode messages) with
      | None => Err BackendError
      | Some translated => rebuild messages translated
      end
  end.

(** ** Vocabulary of the properties *)

(** [occurs c s]: the character [c] occurs in [s]. *)
Fixpoint occurs (c : ascii) (s : string) : bool :=
  match s with
  | EmptyString => false
  | String x t => (x =? c)%char || occurs c t
  end.

(** [scan c p s] reads [s] looking for two [c] in a row; [p] tells whether
    the character before [s] was a [c].  [None]: the pair was found;
    [Some p']: it was not, and [p'] tells whether [s] ended on a [c]
    ([p] itself for the empty string). *)
Fixpoint scan (c : ascii) (p : bool) (s : string) : option bool :=
  match s with
  | EmptyString => Some p
  | String x t =>
      if (x =? c)%char then (if p then None else scan c true t)
      else scan c false t
  end.

Definition twice (c : ascii) : string := String c (String c "").
Definition once (c : ascii) : string := String c "".

(** [first_split sep s a b]: [s] is [a], then [sep], then [b], and no
    occurrence of [sep] in [s] starts before that one. *)
Definition first_split (sep s a b : string) : Prop :=
  s = a ++ sep ++ b /\
  forall a' b', s = a' ++ sep ++ b' -> String.length a <= String.length a'.

(** [lacks sep s]: [sep] does not occur in [s]. *)
Definition lacks (sep s : string) : Prop :=
  forall a b, s <> a ++ sep ++ b.


(** [quoted s]: [s] between double quotes, as it stands. *)
Definition quoted (s : string) : string :=
  String Str.quote (s ++ String Str.quote "").

(** The leaves of a document as the specification describes them: in the
    order of the keys, a key whose value is a non-empty string or a
    non-empty array is a leaf, a key whose value is a non-empty mapping is
    walked with the chain extended by the key, anything else is skipped.
    Each leaf comes with its key chain. *)
Fixpoint leaves_entry (key : string) (value : json) {struct value}
  : list (list string * json) :=
  match value with
  | JString s => if Str.truthy s then [([key], value)] else []
  | JArray items =>
      match items with
      | [] => []
      | _ :: _ => [([key], value)]
      end
  | JObject entries =>
      map (fun cv : list string * json => (key :: fst cv, snd cv))
          (flat_map (fun kv : string * json =>
                       let (k, v) := kv in leaves_entry k v) entries)
  | _ => []
  end.

Definition leaves (obj : object) : list (list string * json) :=
  flat_map (fun kv : string * json => let (k, v) := kv in leaves_entry k v) obj.

(** The extraction of the specification: one record per leaf, its path the
    key chain joined by slashes. *)
Definition extract_spec (obj : object) : list LeafRecord :=
  map (fun cv : list string * json => mkLeaf (Str.join "/" (fst cv)) (snd cv))
      (leaves obj).

(** The path [resolvePaths] builds along a key chain, starting from
    [currentPath]. *)
Fixpoint path_from (currentPath : option string) (chain : list string)
  : string :=
  match chain with
  | [] => match currentPath with Some p => p | None => "" end
  | k :: rest => path_from (Some (child_path currentPath k)) rest
  end.

(** The documents of the round trip. *)
Definition key_ok (k : string) : bool :=
  Str.truthy k && negb (occurs "/" k).

Definition text_ok (s : string) : bool :=
  negb (Str.includes "//" s) && negb (Str.includes "==" s).

Definition is_text (v : json) : bool :=
  match v with
  | JString s => text_ok s
  | _ => false
  end.

Fixpoint distinct (l : list string) : bool :=
  match l with
  | [] => true
  | x :: r => negb (contains r x) && distinct r
  end.

Definition nonempty {A : Type} (l : list A) : bool :=
  match l with [] => false | _ :: _ => true end.

(** [value_ok v]: [v] is a non-empty string, a non-empty array of strings,
    or a non-empty mapping with distinct keys, each of them non-empty and
    free of ["/"], to values of the same kind; and no string of it
    contains ["//"] or ["=="]. *)
Fixpoint value_ok (v : json) : bool :=
  match v with
  | JString s => Str.truthy s && text_ok s
  | JArray items => nonempty items && forallb is_text items
  | JObject entries =>
      nonempty entries && distinct (map fst entries)
      && forallb (fun kv : string * json =>
                    let (k, x) := kv in key_ok k && value_ok x) entries
  | _ => false
  end.

Definition document_ok (d : object) : bool := value_ok (JObject d).

(** Setting the leaves one after the other, by key chain. *)
Definition set_leaves (l : list (list string * json)) (o : object) : object :=
  fold_left (fun acc cv => set_keys (fst cv) (snd cv) acc) l o.

(** [sealed c s]: wherever [s] is put, no pair of [c] lies inside it or
    across its ends. *)
Definition sealed (c : ascii) (s : string) : Prop :=
  forall p, scan c p s = Some false.

(** The texts of the round trip, as values. *)
Definition leaf_text (v : json) : Prop :=
  (exists s, v = JString s /\ text_ok s = true)
  \/ (exists strs, strs <> [] /\ v = JArray (map JString strs)
                   /\ forallb text_ok strs = true).

(** [slash_free v]: no key of [v], at any depth, holds a ["/"]. *)
Fixpoint slash_free (v : json) : bool :=
  match v with
  | JObject entries =>
      forallb (fun kv : string * json =>
                 let (k, x) := kv in negb (occurs "/" k) && slash_free x)
              entries
  | _ => true
  end.

(** Induction on JSON values, with the hypothesis on every item of an
    array and on every value of a mapping. *)
Fixpoint json_induction (P : json -> Prop)
    (HNull : P JNull) (HBool : forall b, P (JBool b))
    (HNumber : forall l, P (JNumber l)) (HString : forall s, P (JString s))
    (HArray : forall items, Forall P items -> P (JArray items))
    (HObject : forall entries,
        Forall (fun kv => P (snd kv)) entries -> P (JObject entries))
    (v : json) {struct v} : P v :=
  match v with
  | JNull => HNull
  | JBool b => HBool b
  | JNumber l => HNumber l
  | JString s => HString s
  | JArray items =>
      HArray items
        ((fix all (l : list json) : Forall P l :=
            match l with
            | [] => Forall_nil P
            | x :: r =>
                Forall_cons x
                  (json_induction P HNull HBool HNumber HString HArray HObject x)
                  (all r)
            end) items)
  | JObject entries =>
      HObject entries
        ((fix all (l : list (string * json))
            : Forall (fun kv => P (snd kv)) l :=
            match l with
            | [] => Forall_nil _
            | kv :: r =>
                Forall_cons kv
                  (json_induction P HNull HBool HNumber HString HArray HObject
                     (snd kv))
                  (all r)
            end) entries)
  end.

(** ** Vocabulary of the further properties *)

(** [after_last c s]: what follows the last [c] of [s]; the whole of [s]
    when [c] does not occur in it. *)
Fixpoint after_last (c : ascii) (s : string) : string :=
  match s with
  | EmptyString => EmptyString
  | String x t =>
      if occurs c t then after_last c t
      else if (x =? c)%char then t else s
  end.

(** The batch that carries the value [snd iv] for the record of position
    [fst iv], for every pair [iv], in the format of [encode]. *)
Definition batch (pairs : list (nat * json)) : string :=
  Str.join "//"
    (map (fun iv : nat * json =>
            Str.of_nat (fst iv) ++ "==" ++ JSON.stringify (snd iv)) pairs).

(** [map_leaves g v]: [v] with every string and every array it holds as a
    value replaced by its image under [g], the mappings kept. *)
Fixpoint map_leaves (g : json -> json) (v : json) : json :=
  match v with
  | JObject entries =>
      JObject (map (fun kv : string * json =>
                      let (k, x) := kv in (k, map_leaves g x)) entries)
  | JString _ | JArray _ => g v
  | _ => v
  end.

(** [keys_ok v]: at every depth of [v] the keys of a mapping are distinct,
    not empty and free of ["/"]. *)
Fixpoint keys_ok (v : json) : bool :=
  match v with
  | JObject entries =>
      distinct (map fst entries)
      && forallb (fun kv : string * json =>
                    let (k, x) := kv in
                    Str.truthy k && negb (occurs "/" k) && keys_ok x) entries
  | _ => true
  end.


(** What the loop makes of a well-formed answer: pair after pair, the value
    is set at the path of the record the index names; an index without a
    record stops everything. *)
Fixpoint apply_pairs (messages : list LeafRecord) (pairs : list (nat * json))
    (o : object) : result object :=
  match pairs with
  | [] => Ok o
  | (i, v) :: rest =>
      match nth_error messages i with
      | Some r => apply_pairs messages rest (ObjectManager_set (path r) v o)
      | None => Err TypeError
      end
  end.

(** * Properties *)

Ltac break_match :=
  match goal with
  | |- context [match ?x with _ => _ end] => destruct x eqn:?
  end.

(** ** Strings: append, [cut] and [split] *)

#[local] Arguments Str.cut : simpl never.

Section StringFacts.

Lemma append_nil_r (s : string) : s ++ "" = s.
Proof. induction s as [|c s IH]; simpl; [reflexivity | now rewrite IH]. Qed.

Lemma append_assoc (a b c : string) : (a ++ b) ++ c = a ++ b ++ c.
Proof. induction a as [|x a IH]; simpl; [reflexivity | now rewrite IH]. Qed.

Lemma length_append (a b : string) :
  String.length (a ++ b) = String.length a + String.length b.
Proof. induction a as [|x a IH]; simpl; [reflexivity | now rewrite IH]. Qed.

Lemma prefix_append (sep b : string) : prefix sep (sep ++ b) = true.
Proof.
  induction sep as [|c sep IH]; simpl; [now destruct b|].
  destruct (ascii_dec c c) as [_|n]; [exact IH | now destruct n].
Qed.

Lemma drop_append (sep b : string) : Str.drop (String.length sep) (sep ++ b) = b.
Proof. induction sep as [|c sep IH]; simpl; [now destruct b | exact IH]. Qed.

Lemma prefix_true (sep s : string) :
  prefix sep s = true -> s = sep ++ Str.drop (String.length sep) s.
Proof.
  revert s; induction sep as [|c sep IH]; intros s H; simpl.
  - now destruct s.
  - destruct s as [|x s]; simpl in H; [discriminate|].
    destruct (ascii_dec c x) as [->|]; [|discriminate].
    now rewrite <- (IH s H).
Qed.

Lemma cut_unfold (sep : string) (c : ascii) (t : string) :
  Str.cut sep (String c t) =
  if prefix sep (String c t)
  then Some ("", Str.drop (String.length sep) (String c t))
  else match Str.cut sep t with
       | Some (a, b) => Some (String c a, b)
       | None => None
       end.
Proof. reflexivity. Qed.

Lemma cut_empty (sep : string) :
  Str.cut sep "" =
  if prefix sep "" then Some ("", Str.drop (String.length sep) "") else None.
Proof. reflexivity. Qed.

(** [cut] splits at an occurrence of the separator. *)
Lemma cut_Some (sep s a b : string) :
  Str.cut sep s = Some (a, b) -> s = a ++ sep ++ b.
Proof.
  revert a b; induction s as [|c t IH]; intros a b H.
  - rewrite cut_empty in H. destruct (prefix sep "") eqn:P; [|discriminate].
    injection H as <- <-. exact (prefix_true _ _ P).
  - rewrite cut_unfold in H. destruct (prefix sep (String c t)) eqn:P.
    + injection H as <- <-. exact (prefix_true _ _ P).
    + destruct (Str.cut sep t) as [[a' b']|] eqn:C; [|discriminate].
      injection H as <- <-. simpl. now rewrite <- (IH a' b' eq_refl).
Qed.

(** ... and at the first one: no occurrence starts earlier. *)
Lemma cut_first (sep s a b : string) :
  Str.cut sep s = Some (a, b) ->
  forall a' b', s = a' ++ sep ++ b' -> String.length a <= String.length a'.
Proof.
  revert a b; induction s as [|c t IH]; intros a b H a' b' E.
  - rewrite cut_empty in H. destruct (prefix sep ""); [|discriminate].
    injection H as <- <-. simpl. lia.
  - rewrite cut_unfold in H. destruct (prefix sep (String c t)) eqn:P.
    + injection H as <- <-. simpl. lia.
    + destruct (Str.cut sep t) as [[a1 b1]|] eqn:C; [|discriminate].
      injection H as <- <-.
      destruct a' as [|x a'].
      * simpl in E. rewrite E, prefix_append in P. discriminate.
      * simpl in E. injection E as _ E. simpl.
        specialize (IH a1 b1 eq_refl a' b' E). lia.
Qed.

Lemma cut_None (sep s : string) :
  Str.cut sep s = None -> forall a b, s <> a ++ sep ++ b.
Proof.
  induction s as [|c t IH]; intros H a b E.
  - rewrite cut_empty in H. destruct (prefix sep "") eqn:P; [discriminate|].
    rewrite E in P. destruct a; simpl in P; [|discriminate].
    simpl in E. now rewrite prefix_append in P.
  - rewrite cut_unfold in H. destruct (prefix sep (String c t)) eqn:P;
      [discriminate|].
    destruct (Str.cut sep t) as [[a1 b1]|] eqn:C; [discriminate|].
    destruct a as [|x a].
    + simpl in E. rewrite E, prefix_append in P. discriminate.
    + simpl in E. injection E as _ E. exact (IH eq_refl a b E).
Qed.

End StringFacts.

Section Separators.

Variable c : ascii.

Lemma scan_append (p : bool) (a b : string) :
  scan c p (a ++ b) =
  match scan c p a with
  | Some p' => scan c p' b
  | None => None
  end.
Proof.
  revert p; induction a as [|x a IH]; intro p; simpl; [reflexivity|].
  destruct (x =? c)%char; [destruct p|]; auto.
Qed.

Lemma scan_absent (p : bool) (s : string) :
  occurs c s = false ->
  scan c p s = Some (match s with EmptyString => p | String _ _ => false end).
Proof.
  revert p; induction s as [|x s IH]; intros p H; simpl in *; [reflexivity|].
  apply orb_false_iff in H as [-> H]. rewrite (IH false H). now destruct s.
Qed.

Lemma prefix_once (x : ascii) (t : string) :
  prefix (once c) (String x t) = (x =? c)%char.
Proof.
  unfold once; simpl. destruct (ascii_dec c x) as [<-|n].
  - rewrite Ascii.eqb_refl. now destruct t.
  - symmetry. apply Ascii.eqb_neq. congruence.
Qed.

Lemma prefix_twice (x : ascii) (t : string) :
  prefix (twice c) (String x t) =
  (x =? c)%char && match t with
                   | String y _ => (y =? c)%char
                   | EmptyString => false
                   end.
Proof.
  unfold twice. destruct t as [|y t].
  - simpl. rewrite andb_false_r. now destruct (ascii_dec c x).
  - assert (E : prefix (String c (String c "")) (String x (String y t)) =
                if ascii_dec c x then prefix (once c) (String y t) else false)
      by reflexivity.
    rewrite E, prefix_once. destruct (ascii_dec c x) as [<-|n].
    + now rewrite Ascii.eqb_refl.
    + assert (F : (x =? c)%char = false) by (apply Ascii.eqb_neq; congruence).
      now rewrite F.
Qed.

(** One-character separators. *)

Lemma cut_once_absent (s : string) :
  occurs c s = false -> Str.cut (once c) s = None.
Proof.
  induction s as [|x s IH]; intro H; [reflexivity|].
  simpl in H. apply orb_false_iff in H as [E H].
  rewrite cut_unfold, prefix_once, E, (IH H). reflexivity.
Qed.

Lemma cut_once_present (s : string) :
  occurs c s = true -> Str.cut (once c) s <> None.
Proof.
  induction s as [|x s IH]; intro H; [discriminate|].
  rewrite cut_unfold, prefix_once. simpl in H.
  destruct (x =? c)%char; [discriminate|]. simpl in H.
  destruct (Str.cut (once c) s) as [[a b]|]; [discriminate|].
  now specialize (IH H).
Qed.

Lemma cut_once (a b : string) :
  occurs c a = false -> Str.cut (once c) (a ++ once c ++ b) = Some (a, b).
Proof.
  induction a as [|x a IH]; intro H.
  - cbn [append once]. rewrite cut_unfold. fold (once c).
    rewrite prefix_once, Ascii.eqb_refl. reflexivity.
  - simpl in H. apply orb_false_iff in H as [E H]. cbn [append].
    rewrite cut_unfold, prefix_once, E, (IH H). reflexivity.
Qed.

(** Two-character separators made of the same character twice. *)

Lemma cut_twice_None (p : bool) (s : string) :
  scan c p s <> None -> Str.cut (twice c) s = None.
Proof.
  revert p; induction s as [|x s IH]; intros p H; [reflexivity|].
  rewrite cut_unfold, prefix_twice. simpl in H.
  destruct (x =? c)%char eqn:E; simpl.
  - destruct p; [congruence|]. rewrite (IH true H).
    destruct s as [|y s]; [reflexivity|]. simpl in H.
    destruct (y =? c)%char; [congruence | reflexivity].
  - now rewrite (IH false H).
Qed.

Lemma cut_None_scan (s : string) :
  Str.cut (twice c) s = None ->
  forall p, (p = true -> match s with
                         | String y _ => (y =? c)%char = false
                         | EmptyString => True
                         end) ->
  scan c p s <> None.
Proof.
  induction s as [|x s IH]; intros H p Hp; [discriminate|].
  rewrite cut_unfold, prefix_twice in H. simpl.
  destruct (x =? c)%char eqn:E; simpl in H.
  - destruct p; [specialize (Hp eq_refl); congruence|].
    destruct s as [|y s]; [discriminate|].
    destruct (y =? c)%char eqn:E'; [discriminate|].
    apply IH.
    + destruct (Str.cut (twice c) (String y s)) as [[a b]|];
        [discriminate | reflexivity].
    + intros _. reflexivity.
  - apply IH; [|discriminate].
    destruct (Str.cut (twice c) s) as [[a b]|]; [discriminate | reflexivity].
Qed.

Lemma includes_twice (s : string) :
  Str.includes (twice c) s = false -> scan c false s <> None.
Proof.
  unfold Str.includes. intro H. apply cut_None_scan; [|discriminate].
  destruct (Str.cut (twice c) s); [discriminate | reflexivity].
Qed.

Lemma cut_twice (p : bool) (a b : string) :
  scan c p a = Some false ->
  Str.cut (twice c) (a ++ twice c ++ b) = Some (a, b).
Proof.
  revert p; induction a as [|x a IH]; intros p H.
  - cbn [append twice]. rewrite cut_unfold. fold (twice c).
    rewrite prefix_twice, Ascii.eqb_refl. reflexivity.
  - simpl in H. cbn [append]. rewrite cut_unfold, prefix_twice.
    destruct (x =? c)%char eqn:E; cbn [andb].
    + destruct p; [discriminate|]. rewrite (IH true H).
      destruct a as [|y a]; [discriminate|]. cbn [append]. simpl in H.
      destruct (y =? c)%char; [discriminate | reflexivity].
    + now rewrite (IH false H).
Qed.

End Separators.

(** [split] gives back the pieces that [join] put together, when no piece
    holds the separator and no occurrence straddles a piece and a
    separator. *)
Lemma split_join (sep : string) (pieces : list string) :
  sep <> "" -> pieces <> [] ->
  (forall t, In t pieces ->
     Str.cut sep t = None /\
     forall b, Str.cut sep (t ++ sep ++ b) = Some (t, b)) ->
  forall fuel, String.length (Str.join sep pieces) <= fuel ->
  Str.split_fuel fuel sep (Str.join sep pieces) = pieces.
Proof.
  intros Hsep Hne H. induction pieces as [|t r IH]; [congruence|].
  intros fuel Hf. destruct r as [|t' r].
  - simpl. destruct (H t (or_introl eq_refl)) as [N _].
    destruct fuel; simpl; [reflexivity | now rewrite N].
  - change (Str.join sep (t :: t' :: r)) with (t ++ sep ++ Str.join sep (t' :: r))
      in *.
    destruct (H t (or_introl eq_refl)) as [_ C].
    rewrite !length_append in Hf.
    assert (0 < String.length sep) by (destruct sep; [congruence | simpl; lia]).
    destruct fuel as [|f]; [lia|]. simpl. rewrite C. f_equal.
    apply IH; [discriminate | | lia].
    intros u Hu. apply H. now right.
Qed.

(** ** Arguments, target language and the persisted default *)

Lemma contains_In (l : list string) (v : string) :
  contains l v = true <-> In v l.
Proof.
  unfold contains. rewrite existsb_exists. split.
  - intros [x [Hx E]]. apply String.eqb_eq in E. now subst.
  - intro H. exists v. split; [exact H | apply String.eqb_refl].
Qed.

(** C5. A phrase translation calls the backend once, with the words joined
    by a space and with the target language resolved in the order: the
    value of [--to] when it was given, otherwise the persisted default
    language when there is one, otherwise ["en"]. *)
Theorem C5_target_language_resolution
    (backend : string -> string -> option string)
    (message : list string) (options : OptionsCommand) (w : World) :
  opt_languages options = false ->
  message <> [] ->
  calls (fst (run backend message options w)) =
  (calls w ++
   [(Str.join " " message,
     match opt_to options with
     | Some explicit => explicit
     | None =>
         match defaultLanguage (db w) with
         | Some persisted => persisted
         | None => "en"
         end
     end)])%list.
Proof.
  intros L M. unfold run. rewrite L.
  destruct message as [|m ms]; [congruence|]. cbn [andb].
  unfold translate, call_backend, target_language.
  destruct (backend _ _); reflexivity.
Qed.

(** C5, on the two cases the specification names: no [--to] and a persisted
    default of ["fr"] gives ["fr"]; neither gives ["en"]. *)
Lemma C5_target_language_resolution_witness :
  calls (fst (run (fun m _ => Some m) ["good"; "morning"] (mkOptions None false)
                  (mkWorld (mkDatabase (Some "fr") ["French"] ["fr"]) [] [] [] [])))
  = [("good morning", "fr")]
  /\ calls (fst (run (fun m _ => Some m) ["good"; "morning"]
                     (mkOptions None false)
                     (mkWorld (mkDatabase None ["French"] ["fr"]) [] [] [] [])))
     = [("good morning", "en")].
Proof.
  split.
  - apply (C5_target_language_resolution (fun m _ => Some m)
             ["good"; "morning"] (mkOptions None false)
             (mkWorld (mkDatabase (Some "fr") ["French"] ["fr"]) [] [] [] []));
      [reflexivity | discriminate].
  - apply (C5_target_language_resolution (fun m _ => Some m)
             ["good"; "morning"] (mkOptions None false)
             (mkWorld (mkDatabase None ["French"] ["fr"]) [] [] [] []));
      [reflexivity | discriminate].
Defined.

(** C7. When the value of [--to] is neither a long name nor a short name of
    the catalog, the command line is refused by [verifyString] while the
    options are read: no action runs, the world is left as it was, and in
    particular the backend was not called. *)
Theorem C7_unknown_language_rejected_before_backend
    (backend : string -> string -> option string)
    (value : string) (languages_flag : bool) (c : command) (w : World) :
  ~ In value (longName (db w)) ->
  ~ In value (shortName (db w)) ->
  (exists message,
     parse backend (Some value) languages_flag c w
     = (w, Err (InvalidArgumentError message)))
  /\ calls (fst (parse backend (Some value) languages_flag c w)) = calls w
  /\ files (fst (parse backend (Some value) languages_flag c w)) = files w.
Proof.
  intros HL HS.
  assert (EL : contains (longName (db w)) value = false).
  { destruct (contains (longName (db w)) value) eqn:E; [|reflexivity].
    apply contains_In in E. contradiction. }
  assert (ES : contains (shortName (db w)) value = false).
  { destruct (contains (shortName (db w)) value) eqn:E; [|reflexivity].
    apply contains_In in E. contradiction. }
  unfold parse, verifyString. rewrite EL, ES. cbn.
  repeat split. eexists. reflexivity.
Qed.

Lemma C7_unknown_language_rejected_before_backend_witness :
  calls (fst (parse (fun m _ => Some m) (Some "klingon") false (Bare ["hello"])
                (mkWorld (mkDatabase None ["English"; "French"] ["en"; "fr"])
                         [] [] [] [])))
  = [].
Proof.
  apply (C7_unknown_language_rejected_before_backend (fun m _ => Some m)
           "klingon" false (Bare ["hello"])
           (mkWorld (mkDatabase None ["English"; "French"] ["en"; "fr"])
                    [] [] [] [])).
  - simpl. intuition discriminate.
  - simpl. intuition discriminate.
Defined.

Lemma run_db (backend : string -> string -> option string)
    (message : list string) (options : OptionsCommand) (w : World) :
  db (fst (run backend message options w)) = db w.
Proof.
  unfold run, translate, call_backend.
  repeat (break_match; cbn); reflexivity.
Qed.

Lemma translateFile_db (backend : string -> string -> option string)
    (p : string) (w : World) :
  db (fst (translateFile backend p w)) = db w.
Proof.
  unfold translateFile, translateFile_json, translateFile_txt, call_backend.
  repeat (break_match; cbn); reflexivity.
Qed.

(** C9. The persisted default language is written by the [to] action only:
    whatever the command line, the database after the command is the
    database before it unless the command is [to]; in particular [run] and
    [translateFile] leave it as it was.  The [to] action stores the chosen
    language. *)
Theorem C9_default_language_written_only_by_to
    (backend : string -> string -> option string) :
  (forall message options w,
     db (fst (run backend message options w)) = db w)
  /\ (forall p w, db (fst (translateFile backend p w)) = db w)
  /\ (forall to_value languages_flag c w,
        match c with
        | CmdTo language => True
        | _ => db (fst (parse backend to_value languages_flag c w)) = db w
        end)
  /\ (forall language w,
        defaultLanguage (db (fst (to language w))) = Some language).
Proof.
  repeat split.
  - apply run_db.
  - apply translateFile_db.
  - intros tv fl c w. unfold parse.
    destruct c; trivial;
      (destruct tv as [v|]; [destruct (verifyString (db w) v)|]); cbn;
      auto using run_db, translateFile_db.
Qed.

(** ** File names *)

Lemma split_once (c : ascii) (pieces : list string) :
  pieces <> [] ->
  Forall (fun t => occurs c t = false) pieces ->
  Str.split (once c) (Str.join (once c) pieces) = pieces.
Proof.
  intros Hne H. unfold Str.split. apply split_join;
    [discriminate | exact Hne | | apply Nat.le_refl].
  intros t Ht. rewrite Forall_forall in H. specialize (H t Ht). split.
  - now apply cut_once_absent.
  - intro b. now apply cut_once.
Qed.

Lemma at_last_app (l : list string) (x : string) :
  at_last (l ++ [x])%list = Some x.
Proof. unfold at_last. now rewrite rev_app_distr. Qed.

Lemma file_name_join (dirs : list string) (name : string) :
  Forall (fun d => occurs "/" d = false) dirs ->
  occurs "/" name = false ->
  file_name (Str.join "/" (dirs ++ [name])%list) = name.
Proof.
  intros Hd Hn. unfold file_name.
  change "/" with (once "/"%char).
  rewrite split_once, at_last_app; [reflexivity | now destruct dirs |].
  apply Forall_app. split; [exact Hd | now constructor].
Qed.

Lemma split_stem_ext (stem ext : string) :
  occurs "." stem = false -> occurs "." ext = false ->
  Str.split "." (stem ++ "." ++ ext) = [stem; ext].
Proof.
  intros Hs He.
  change (stem ++ "." ++ ext) with (Str.join (once "."%char) [stem; ext]).
  change "." with (once "."%char). apply split_once; [discriminate|].
  now repeat constructor.
Qed.

(** The name under which [translateFile] writes, for a file whose name is a
    stem, one dot and an extension. *)
Lemma pathTranslated_one_dot (dirs : list string) (stem ext : string) :
  Forall (fun d => occurs "/" d = false) dirs ->
  occurs "/" stem = false -> occurs "." stem = false ->
  occurs "/" ext = false -> occurs "." ext = false ->
  let p := Str.join "/" (List.app dirs [stem ++ "." ++ ext]) in
  file_type p = Some ext
  /\ pathTranslated p ("." ++ ext) = stem ++ "-translated." ++ ext.
Proof.
  intros Hd Hs1 Hs2 He1 He2 p.
  assert (N : file_name p = stem ++ "." ++ ext).
  { apply file_name_join; [exact Hd|].
    clear - Hs1 He1. induction stem as [|x s IH]; simpl in *; [exact He1|].
    apply orb_false_iff in Hs1 as [-> Hs1]. now apply IH. }
  unfold file_type, pathTranslated. rewrite N, split_stem_ext by assumption.
  split; reflexivity.
Qed.

(** C4, as the code has it.  For an input file whose name is a stem, one
    dot and the extension [json] or [txt], whatever the directories in
    front of it, [translateFile] writes at most one file, and its name is
    the stem followed by [-translated] and the original extension; the
    name carries no directory, so the file lands in the working directory
    and is a sibling of the input only when the input path has no directory
    part. *)
Theorem C4_output_name_one_dot
    (backend : string -> string -> option string)
    (dirs : list string) (stem ext : string) (w : World) :
  Forall (fun d => occurs "/" d = false) dirs ->
  occurs "/" stem = false -> occurs "." stem = false ->
  ext = "json" \/ ext = "txt" ->
  let p := Str.join "/" (List.app dirs [stem ++ "." ++ ext]) in
  let out := stem ++ "-translated." ++ ext in
  file_type p = Some ext
  /\ pathTranslated p ("." ++ ext) = out
  /\ (files (fst (translateFile backend p w)) = files w
      \/ exists content,
           files (fst (translateFile backend p w)) = (out, content) :: files w).
Proof.
  intros Hd Hs1 Hs2 He p out.
  assert (He' : occurs "/" ext = false /\ occurs "." ext = false)
    by (destruct He as [-> | ->]; split; reflexivity).
  destruct He' as [He1 He2].
  destruct (pathTranslated_one_dot dirs stem ext Hd Hs1 Hs2 He1 He2) as [T P].
  fold p in T, P. repeat split; [exact T | exact P |].
  unfold translateFile. rewrite T.
  destruct (negb (isFile p w)); [now left|].
  destruct He as [-> | ->]; cbn [String.eqb Ascii.eqb Bool.eqb];
    [unfold translateFile_json | unfold translateFile_txt];
    unfold call_backend; change (".json") with ("." ++ "json") in *;
    change (".txt") with ("." ++ "txt") in *; rewrite ?P;
    repeat (break_match; cbn [fst files writeFile console_log]);
    try (now left); right; eexists; reflexivity.
Qed.

Lemma C4_output_name_one_dot_witness :
  file_type "locales/pt/messages.json" = Some "json"
  /\ pathTranslated "locales/pt/messages.json" ".json"
     = "messages-translated.json".
Proof.
  destruct (C4_output_name_one_dot (fun m _ => Some m) ["locales"; "pt"]
              "messages" "json" (mkWorld (mkDatabase None [] []) [] [] [] []))
    as [T [P _]].
  - repeat constructor.
  - reflexivity.
  - reflexivity.
  - now left.
  - split; [exact T | exact P].
Defined.

(** C4 as stated fails twice over, on files the prompt offers: of a name
    with two dots only the text before the first dot is kept, and the
    directory of the input is dropped from the output path. *)
Lemma C4_counterexample :
  excludeFilter "a.b.json" = false
  /\ excludeFilter "sub/x.txt" = false
  /\ pathTranslated "a.b.json" ".json" = "a-translated.json"
  /\ pathTranslated "a.b.json" ".json" <> "a.b-translated.json"
  /\ files (fst (translateFile (fun m _ => Some m) "sub/x.txt"
                   (mkWorld (mkDatabase None [] []) [("sub/x.txt", "hello")]
                            [] [] [])))
     = [("x-translated.txt", "hello"); ("sub/x.txt", "hello")].
Proof. repeat split. discriminate. Qed.

(** ** Indices, tokens and the decoding loop *)

Lemma array_index_of_nat (n : nat) : Str.array_index (Str.of_nat n) = Some n.
Proof.
  unfold Str.array_index, Str.of_nat.
  rewrite DecimalString.NilEmpty.usu, DecimalNat.Unsigned.of_to.
  now rewrite String.eqb_refl.
Qed.

Lemma array_index_Some (key : string) (n : nat) :
  Str.array_index key = Some n -> key = Str.of_nat n.
Proof.
  unfold Str.array_index.
  destruct (DecimalString.NilEmpty.uint_of_string key) as [d|]; [|discriminate].
  destruct (String.eqb_spec (Str.of_nat (Nat.of_uint d)) key) as [E|];
    [|discriminate].
  intro H. injection H as <-. now symmetry.
Qed.

Lemma of_nat_inj (n m : nat) : Str.of_nat n = Str.of_nat m -> n = m.
Proof.
  intro E. pose proof (array_index_of_nat n) as H.
  rewrite E, array_index_of_nat in H. now injection H.
Qed.

(** [messages[index]] is a record exactly when [index] is the decimal
    numeral of a position of [messages]. *)
Lemma array_get_Some {A : Type} (arr : list A) (key : string) (x : A) :
  array_get arr key = Some x <->
  exists n, key = Str.of_nat n /\ nth_error arr n = Some x.
Proof.
  unfold array_get. split.
  - destruct (Str.array_index key) as [n|] eqn:E; [|discriminate].
    intro H. exists n. split; [now apply array_index_Some | exact H].
  - intros [n [-> H]]. now rewrite array_index_of_nat.
Qed.

Lemma array_get_of_nat {A : Type} (arr : list A) (n : nat) :
  array_get arr (Str.of_nat n) = nth_error arr n.
Proof. unfold array_get. now rewrite array_index_of_nat. Qed.

Lemma append_same_length (a a' x y : string) :
  a ++ x = a' ++ y -> String.length a = String.length a' -> a = a' /\ x = y.
Proof.
  revert a'; induction a as [|c a IH]; intros [|c' a'] E L;
    simpl in *; try discriminate; [now split|].
  injection E as -> E. injection L as L.
  destruct (IH a' E L) as [-> ->]. now split.
Qed.

Lemma first_split_cut (sep s a b : string) :
  first_split sep s a b -> Str.cut sep s = Some (a, b).
Proof.
  intros [E M]. destruct (Str.cut sep s) as [[a1 b1]|] eqn:C.
  - pose proof (cut_Some _ _ _ _ C) as E1.
    pose proof (cut_first _ _ _ _ C a b E) as L1.
    pose proof (M a1 b1 E1) as L2.
    rewrite E in E1.
    destruct (append_same_length a a1 _ _ E1 ltac:(lia)) as [-> E2].
    destruct (append_same_length sep sep _ _ E2 eq_refl) as [_ ->].
    reflexivity.
  - exfalso. exact (cut_None _ _ C a b E).
Qed.

Lemma lacks_cut (sep s : string) : lacks sep s -> Str.cut sep s = None.
Proof.
  intro L. destruct (Str.cut sep s) as [[a b]|] eqn:C; [|reflexivity].
  exfalso. exact (L a b (cut_Some _ _ _ _ C)).
Qed.

Lemma cut_nonempty_sep (sep : string) : sep <> "" -> Str.cut sep "" = None.
Proof. intro H. rewrite cut_empty. destruct sep; [congruence | reflexivity]. Qed.

Lemma cut_shorter (sep s a b : string) :
  sep <> "" -> Str.cut sep s = Some (a, b) -> String.length b < String.length s.
Proof.
  intros H C. apply cut_Some in C. subst s. rewrite !length_append.
  destruct sep; [congruence | simpl; lia].
Qed.

(** The first piece of a split. *)
Lemma split_fuel_head (fuel : nat) (sep s : string) :
  sep <> "" -> String.length s <= fuel ->
  nth_error (Str.split_fuel fuel sep s) 0 =
  Some (match Str.cut sep s with Some (a, _) => a | None => s end).
Proof.
  intros Hs Hf. destruct fuel as [|f]; simpl.
  - destruct s; [|simpl in Hf; lia]. now rewrite cut_nonempty_sep.
  - now destruct (Str.cut sep s) as [[a b]|].
Qed.

(** The second piece of a split. *)
Lemma split_second (sep s : string) :
  sep <> "" ->
  nth_error (Str.split sep s) 1 =
  match Str.cut sep s with
  | Some (_, rest) =>
      Some (match Str.cut sep rest with Some (v, _) => v | None => rest end)
  | None => None
  end.
Proof.
  intro Hs. unfold Str.split.
  destruct (Str.cut sep s) as [[a rest]|] eqn:C.
  - pose proof (cut_shorter _ _ _ _ Hs C) as L.
    destruct (String.length s) as [|f]; [lia|]. simpl. rewrite C.
    change (nth_error (a :: ?l) 1) with (nth_error l 0).
    apply split_fuel_head; [exact Hs | lia].
  - destruct (String.length s); simpl; [reflexivity | now rewrite C].
Qed.

Lemma split_first (sep s : string) :
  sep <> "" ->
  nth_error (Str.split sep s) 0 =
  Some (match Str.cut sep s with Some (a, _) => a | None => s end).
Proof. intro Hs. now apply split_fuel_head. Qed.

Lemma split_lacks (sep s : string) :
  Str.cut sep s = None -> Str.split sep s = [s].
Proof.
  intro C. unfold Str.split.
  destruct (String.length s); simpl; [reflexivity | now rewrite C].
Qed.

Lemma equals_nonempty : "==" <> "".
Proof. discriminate. Qed.

(** What the loop body does with an entry, spelled out. *)
Lemma set_message_Ok (messages : list LeafRecord) (entry : list string)
    (o o' : object) :
  set_message messages entry o = Ok o' <->
  exists i v n r parsed,
    nth_error entry 0 = Some i /\ nth_error entry 1 = Some v /\
    i = Str.of_nat n /\ nth_error messages n = Some r /\
    JSON.parse v = Some parsed /\
    o' = ObjectManager_set (path r) parsed o.
Proof.
  unfold set_message. split.
  - destruct (nth_error entry 0) as [i|]; [|discriminate].
    destruct (array_get messages i) as [r|] eqn:G; [|discriminate].
    destruct (nth_error entry 1) as [v|]; [|discriminate].
    destruct (JSON.parse v) as [parsed|] eqn:P; [|discriminate].
    intro H. injection H as <-.
    apply array_get_Some in G as [n [-> G]].
    now exists (Str.of_nat n), v, n, r, parsed.
  - intros (i & v & n & r & parsed & -> & -> & -> & G & -> & ->).
    now rewrite array_get_of_nat, G.
Qed.

(** C2, as the code has it.  The loop splits a token on every ["=="] and
    uses the first two pieces: the index part is the text in front of the
    first ["=="], the JSON-text part is the text between the first and the
    second ["=="] (all that follows the first one when there is no second
    one), and what follows a second ["=="] is dropped.  The index part
    selects a record when it is the decimal numeral of a position of
    [messages], and the JSON-text part is parsed as JSON. *)
Theorem C2_token_split_on_every_separator (tok : string) :
  (lacks "==" tok -> Str.split "==" tok = [tok])
  /\ (forall i rest, first_split "==" tok i rest ->
        nth_error (Str.split "==" tok) 0 = Some i
        /\ (lacks "==" rest -> nth_error (Str.split "==" tok) 1 = Some rest)
        /\ (forall v more, first_split "==" rest v more ->
              nth_error (Str.split "==" tok) 1 = Some v))
  /\ (forall messages o o',
        set_message messages (Str.split "==" tok) o = Ok o' <->
        exists i v n r parsed,
          nth_error (Str.split "==" tok) 0 = Some i /\
          nth_error (Str.split "==" tok) 1 = Some v /\
          i = Str.of_nat n /\ nth_error messages n = Some r /\
          JSON.parse v = Some parsed /\
          o' = ObjectManager_set (path r) parsed o).
Proof.
  split; [|split].
  - intro L. apply split_lacks. now apply lacks_cut.
  - intros i rest F. apply first_split_cut in F.
    rewrite (split_first _ _ equals_nonempty),
            (split_second _ _ equals_nonempty), F.
    split; [reflexivity | split].
    + intro L. now rewrite (lacks_cut _ _ L).
    + intros v more F'. now rewrite (first_split_cut _ _ _ _ F').
  - intros. apply set_message_Ok.
Qed.

Lemma C2_token_split_on_every_separator_witness :
  nth_error (Str.split "==" ("0==" ++ quoted "a" ++ "==b")) 0 = Some "0"
  /\ nth_error (Str.split "==" ("0==" ++ quoted "a" ++ "==b")) 1
     = Some (quoted "a").
Proof.
  destruct (C2_token_split_on_every_separator ("0==" ++ quoted "a" ++ "==b"))
    as [_ [H _]].
  assert (F : first_split "==" ("0==" ++ quoted "a" ++ "==b") "0"
                (quoted "a" ++ "==b")).
  { split; [reflexivity|]. intros [|x a'] b' E; [discriminate | simpl; lia]. }
  destruct (H "0" (quoted "a" ++ "==b") F) as [H0 [_ H1]].
  split; [exact H0|]. apply (H1 (quoted "a") "b").
  split; [reflexivity|].
  intros [|x [|y [|z a']]] b' E; try discriminate. simpl; lia.
Defined.

(** C2 as stated fails: a later ["=="] does not stay in the JSON-text part.
    In the token made of 0, ["=="] and the JSON literal of the text a==b,
    what follows the first ["=="] is that literal, which parses, but the
    loop takes as the payload the piece that stops at the second ["=="],
    and fails on it.  Nor is the index part read as a number: the index 01
    selects no record. *)
Lemma C2_counterexample :
  first_split "==" ("0==" ++ quoted "a==b") "0" (quoted "a==b")
  /\ JSON.parse (quoted "a==b") = Some (JString "a==b")
  /\ nth_error (Str.split "==" ("0==" ++ quoted "a==b")) 1
     = Some (String Str.quote "a")
  /\ nth_error (Str.split "==" ("0==" ++ quoted "a==b")) 1
     <> Some (quoted "a==b")
  /\ set_message [mkLeaf "k" (JString "a==b")]
       (Str.split "==" ("0==" ++ quoted "a==b")) []
     = Err SyntaxError
  /\ set_message [mkLeaf "k" (JString "a"); mkLeaf "l" (JString "b")]
       (Str.split "==" ("01==" ++ quoted "c")) []
     = Err TypeError.
Proof.
  repeat split; try discriminate.
  intros [|x a'] b' E; [discriminate | simpl; lia].
Qed.

(** ** All or nothing *)


Lemma set_messages_Ok_all (messages : list LeafRecord)
    (entries : list (list string)) (o o' : object) :
  set_messages messages entries o = Ok o' ->
  Forall (fun e => exists o1 o2, set_message messages e o1 = Ok o2) entries.
Proof.
  revert o; induction entries as [|e rest IH]; intros o H; [constructor|].
  simpl in H. destruct (set_message messages e o) as [o1|] eqn:E;
    [|discriminate].
  constructor; [now exists o, o1 | exact (IH o1 H)].
Qed.


Lemma readFile_isFile (p : string) (w : World) (content : string) :
  readFile p w = Some content -> isFile p w = true.
Proof. unfold readFile, isFile. now intros ->. Qed.

(** The [json] branch up to the loop. *)
Lemma translateFile_json_rebuild
    (backend : string -> string -> option string) (p : string) (w : World)
    (content : string) (data : json) (messages : list LeafRecord)
    (translated : string) :
  readFile p w = Some content ->
  file_type p = Some "json" ->
  JSON.parse content = Some data ->
  resolveMessages data = Ok messages ->
  backend (encode messages) (target_language None (db w)) = Some translated ->
  forall e, rebuild messages translated = Err e ->
  snd (translateFile backend p w) = Err e
  /\ files (fst (translateFile backend p w)) = files w.
Proof.
  intros R T P M B e E. unfold translateFile.
  rewrite (readFile_isFile _ _ _ R), T. cbn [negb String.eqb Ascii.eqb Bool.eqb].
  unfold translateFile_json, call_backend. rewrite R, P, M, B, E.
  split; reflexivity.
Qed.




(** ** Indices out of range *)

(** C8. When a decoded entry carries an index that is out of range of the
    original records, the rebuild fails and gives no document, and
    [translateFile] ends in that error without writing a file; the rebuild
    succeeds only when every decoded index is the numeral of a position of
    an original record. *)
Theorem C8_out_of_range_index_fails
    (messages : list LeafRecord) (translated : string) :
  (Exists (fun entry => exists n, nth_error entry 0 = Some (Str.of_nat n)
                                  /\ List.length messages <= n)
          (newMessages translated) ->
   (exists e, rebuild messages translated = Err e)
   /\ forall backend p w content data,
        readFile p w = Some content ->
        file_type p = Some "json" ->
        JSON.parse content = Some data ->
        resolveMessages data = Ok messages ->
        backend (encode messages) (target_language None (db w))
          = Some translated ->
        (exists e, snd (translateFile backend p w) = Err e)
        /\ files (fst (translateFile backend p w)) = files w)
  /\ (forall o, rebuild messages translated = Ok o ->
        Forall (fun entry => exists n, nth_error entry 0 = Some (Str.of_nat n)
                                       /\ n < List.length messages)
               (newMessages translated)).
Proof.
  assert (Conv : forall o, rebuild messages translated = Ok o ->
            Forall (fun entry => exists n,
                      nth_error entry 0 = Some (Str.of_nat n)
                      /\ n < List.length messages) (newMessages translated)).
  { intros o R. apply set_messages_Ok_all in R.
    eapply Forall_impl; [|exact R]. intros entry [o1 [o2 H]].
    apply set_message_Ok in H as (i & v & n & r & parsed & H0 & _ & -> & G & _).
    exists n. split; [exact H0|]. apply nth_error_Some. congruence. }
  split; [|exact Conv].
  intro X.
  assert (E : exists e, rebuild messages translated = Err e).
  { destruct (rebuild messages translated) as [o|e] eqn:R; [|now exists e].
    exfalso. specialize (Conv o eq_refl).
    rewrite Exists_exists in X. destruct X as [entry [I [n [H0 L]]]].
    rewrite Forall_forall in Conv. destruct (Conv entry I) as [m [H1 L']].
    rewrite H0 in H1. injection H1 as H1. apply of_nat_inj in H1. lia. }
  split; [exact E|].
  intros backend p w content data R T P M B. destruct E as [e E].
  destruct (translateFile_json_rebuild backend p w content data messages
              translated R T P M B e E) as [S F].
  split; [now exists e | exact F].
Qed.

Lemma C8_out_of_range_index_fails_witness :
  exists e, rebuild [mkLeaf "a" (JString "x")]
              ("0==" ++ quoted "u" ++ "//1==" ++ quoted "v") = Err e.
Proof.
  destruct (C8_out_of_range_index_fails [mkLeaf "a" (JString "x")]
              ("0==" ++ quoted "u" ++ "//1==" ++ quoted "v")) as [H _].
  apply H. apply Exists_cons_tl, Exists_cons_hd.
  exists 1. split; [reflexivity | simpl; lia].
Defined.

(** ** Extraction *)

Lemma resolveEntry_object (cp : option string) (k : string) (es : object) :
  resolveEntry cp k (JObject es) = resolvePaths es (Some (child_path cp k)).
Proof. destruct es; reflexivity. Qed.

Lemma leaves_entry_object (k : string) (es : object) :
  leaves_entry k (JObject es) =
  map (fun cv : list string * json => (k :: fst cv, snd cv)) (leaves es).
Proof. reflexivity. Qed.

(** The records of [resolvePaths] are the leaves of the specification, in
    the same order, each with the path built along its key chain. *)
Lemma resolveEntry_leaves (v : json) :
  forall cp k,
    resolveEntry cp k v =
    map (fun cv : list string * json =>
           mkLeaf (path_from cp (fst cv)) (snd cv))
        (leaves_entry k v).
Proof.
  induction v as [| | |s|items _|entries IH] using json_induction; intros cp k;
    try reflexivity.
  - simpl. now destruct (Str.truthy s).
  - simpl. now destruct items.
  - rewrite resolveEntry_object, leaves_entry_object, map_map.
    unfold resolvePaths, leaves. cbn [fst snd path_from].
    induction IH as [|[k' v'] r H _ IHr]; [reflexivity|].
    cbn [flat_map]. rewrite map_app, IHr. f_equal. apply H.
Qed.

Lemma resolvePaths_leaves (obj : object) (cp : option string) :
  resolvePaths obj cp =
  map (fun cv : list string * json => mkLeaf (path_from cp (fst cv)) (snd cv))
      (leaves obj).
Proof.
  unfold resolvePaths, leaves. induction obj as [|[k v] r IH]; [reflexivity|].
  cbn [flat_map]. now rewrite map_app, IH, resolveEntry_leaves.
Qed.

Lemma join_cons (sep x y : string) (l : list string) :
  Str.join sep (x :: y :: l) = x ++ sep ++ Str.join sep (y :: l).
Proof. reflexivity. Qed.

Lemma append_truthy (a b : string) :
  Str.truthy a = true -> Str.truthy (a ++ b) = true.
Proof. now destruct a. Qed.

(** From a non-empty current path, the path of a chain is the current path
    and the keys of the chain joined by slashes. *)
Lemma path_from_Some (chain : list string) (p : string) :
  Str.truthy p = true -> path_from (Some p) chain = Str.join "/" (p :: chain).
Proof.
  revert p; induction chain as [|k r IH]; intros p T; [reflexivity|].
  cbn [path_from child_path]. rewrite T, IH by now apply append_truthy.
  destruct r as [|k' r]; [reflexivity|].
  rewrite !join_cons. now rewrite !append_assoc.
Qed.

(** At the top, the path of a chain is its keys joined by slashes, as long
    as the first key is not empty. *)
Lemma path_from_None (k : string) (chain : list string) :
  Str.truthy k = true -> path_from None (k :: chain) = Str.join "/" (k :: chain).
Proof. intro T. cbn [path_from child_path]. now apply path_from_Some. Qed.

(** ** JSON literals of strings *)

#[local] Arguments JSON.parse_chars : simpl nomatch.

Lemma parse_quote_char (x : ascii) (t : string) :
  JSON.parse_chars (JSON.quote_char x ++ t) = JSON.push x (JSON.parse_chars t).
Proof.
  destruct x as [[] [] [] [] [] [] [] []]; reflexivity.
Qed.

Lemma parse_quote_chars (s rest : string) :
  JSON.parse_chars (JSON.quote_chars s ++ String Str.quote rest)
  = Some (s, rest).
Proof.
  induction s as [|x s IH]; [reflexivity|].
  cbn [JSON.quote_chars]. now rewrite append_assoc, parse_quote_char, IH.
Qed.

Lemma scan_quote_char_slash (x : ascii) (p : bool) :
  scan "/" p (JSON.quote_char x) = scan "/" p (String x "").
Proof. destruct x as [[] [] [] [] [] [] [] []]; destruct p; reflexivity. Qed.

Lemma scan_quote_char_equals (x : ascii) (p : bool) :
  scan "=" p (JSON.quote_char x) = scan "=" p (String x "").
Proof. destruct x as [[] [] [] [] [] [] [] []]; destruct p; reflexivity. Qed.

Section Sealed.

Variable c : ascii.
Hypothesis quote_char_scan :
  forall x p, scan c p (JSON.quote_char x) = scan c p (String x "").

Lemma sealed_append (a b : string) :
  sealed c a -> sealed c b -> sealed c (a ++ b).
Proof. intros A B p. now rewrite scan_append, A, B. Qed.

Lemma sealed_char (x : ascii) : (x =? c)%char = false -> sealed c (String x "").
Proof. intros E p. cbn [scan]. now rewrite E. Qed.

Lemma scan_quote_chars (s : string) (p : bool) :
  scan c p (JSON.quote_chars s) = scan c p s.
Proof.
  revert p; induction s as [|x s IH]; intro p; [reflexivity|].
  cbn [JSON.quote_chars]. rewrite scan_append, quote_char_scan. simpl.
  destruct (x =? c)%char; [destruct p|]; auto.
Qed.

Lemma sealed_quote_string (s : string) :
  (Str.quote =? c)%char = false ->
  scan c false s <> None -> sealed c (JSON.quote_string s).
Proof.
  intros Q H p. unfold JSON.quote_string. cbn [scan]. rewrite Q.
  rewrite scan_append, scan_quote_chars.
  destruct (scan c false s) as [p'|]; [|congruence]. cbn [scan]. now rewrite Q.
Qed.

Lemma sealed_join (sep : string) (l : list string) :
  l <> [] -> sealed c sep -> Forall (sealed c) l -> sealed c (Str.join sep l).
Proof.
  intros Hne Hs H. induction H as [|t r Ht Hr IH]; [congruence|].
  destruct r as [|t' r]; [exact Ht|].
  rewrite join_cons. apply sealed_append; [exact Ht|].
  apply sealed_append; [exact Hs | apply IH; discriminate].
Qed.

Lemma sealed_cut (t : string) :
  sealed c t ->
  Str.cut (twice c) t = None
  /\ forall b, Str.cut (twice c) (t ++ twice c ++ b) = Some (t, b).
Proof.
  intro S. split.
  - apply (cut_twice_None c false). rewrite S. discriminate.
  - intro b. apply (cut_twice c false). apply S.
Qed.

End Sealed.

Lemma text_ok_scan (s : string) :
  text_ok s = true -> scan "/" false s <> None /\ scan "=" false s <> None.
Proof.
  unfold text_ok. intro H. apply andb_true_iff in H as [A B].
  apply negb_true_iff in A, B. split.
  - now apply (includes_twice "/").
  - now apply (includes_twice "=").
Qed.

Lemma sealed_text (c : ascii) (s : string) :
  (forall x p, scan c p (JSON.quote_char x) = scan c p (String x "")) ->
  (Str.quote =? c)%char = false -> scan c false s <> None ->
  sealed c (JSON.stringify (JString s)).
Proof. intros. now apply sealed_quote_string. Qed.

Lemma sealed_texts (c : ascii) (strs : list string) :
  (forall x p, scan c p (JSON.quote_char x) = scan c p (String x "")) ->
  (Str.quote =? c)%char = false -> ("," =? c)%char = false ->
  ("[" =? c)%char = false -> ("]" =? c)%char = false ->
  strs <> [] -> Forall (fun s => scan c false s <> None) strs ->
  sealed c (JSON.stringify (JArray (map JString strs))).
Proof.
  intros Hq Q C L R Hne H. cbn [JSON.stringify]. rewrite map_map.
  apply (sealed_append c "["); [now apply sealed_char|].
  apply sealed_append; [|now apply sealed_char].
  apply sealed_join; [now destruct strs | now apply sealed_char |].
  rewrite Forall_map. eapply Forall_impl; [|exact H].
  intros s Hs. now apply sealed_quote_string.
Qed.

(** *** Parsing a literal back *)

Lemma parse_value_quote (f : nat) (t : string) :
  JSON.parse_value (S f) (String Str.quote t) =
  match JSON.parse_chars t with
  | Some (str, r) => Some (JString str, r)
  | None => None
  end.
Proof. reflexivity. Qed.

Lemma parse_value_bracket_quote (f : nat) (t : string) :
  JSON.parse_value (S f) (String "[" (String Str.quote t)) =
  match JSON.parse_items f (String Str.quote t) with
  | Some (items, r) => Some (JArray items, r)
  | None => None
  end.
Proof. reflexivity. Qed.

Lemma parse_items_S (f : nat) (s : string) :
  JSON.parse_items (S f) s =
  match JSON.parse_value f s with
  | Some (v, r) =>
      match JSON.skip_ws r with
      | String "," r' =>
          match JSON.parse_items f r' with
          | Some (vs, r'') => Some (v :: vs, r'')
          | None => None
          end
      | String "]" r' => Some ([v], r')
      | _ => None
      end
  | None => None
  end.
Proof. reflexivity. Qed.

Lemma parse_value_string (f : nat) (s rest : string) :
  JSON.parse_value (S f) (JSON.quote_string s ++ rest) = Some (JString s, rest).
Proof.
  unfold JSON.quote_string. cbn [append].
  rewrite parse_value_quote, append_assoc. cbn [append].
  now rewrite parse_quote_chars.
Qed.

Lemma parse_items_more (f : nat) (s : string) (v : json) (t : string) :
  JSON.parse_value f s = Some (v, String "," t) ->
  JSON.parse_items (S f) s =
  match JSON.parse_items f t with
  | Some (vs, r) => Some (v :: vs, r)
  | None => None
  end.
Proof. intro H. now rewrite parse_items_S, H. Qed.

Lemma parse_items_last (f : nat) (s : string) (v : json) (t : string) :
  JSON.parse_value f s = Some (v, String "]" t) ->
  JSON.parse_items (S f) s = Some ([v], t).
Proof. intro H. now rewrite parse_items_S, H. Qed.

Lemma parse_items_strings (strs : list string) :
  strs <> [] ->
  forall f rest, List.length strs < f ->
    JSON.parse_items f
      (Str.join "," (map JSON.quote_string strs) ++ "]" ++ rest)
    = Some (map JString strs, rest).
Proof.
  induction strs as [|s r IH]; [congruence|]. intros _ f rest Hf.
  destruct f as [|f]; [lia|].
  assert (Hf' : exists f', f = S f')
    by (destruct f; [simpl in Hf; lia | now eexists]).
  destruct Hf' as [f' ->].
  destruct r as [|s' r].
  - cbn [map Str.join String.concat].
    apply parse_items_last. apply parse_value_string.
  - cbn [map]. rewrite join_cons, append_assoc.
    erewrite parse_items_more;
      [|rewrite parse_value_string, append_assoc; reflexivity].
    change (map JSON.quote_string (s' :: r))
      with (JSON.quote_string s' :: map JSON.quote_string r) in IH.
    rewrite IH; [reflexivity | discriminate | simpl in *; lia].
Qed.

Lemma length_join_quoted (strs : list string) :
  List.length strs
  <= String.length (Str.join "," (map JSON.quote_string strs)).
Proof.
  induction strs as [|s r IH]; [simpl; lia|].
  destruct r as [|s' r]; [simpl; lia|].
  cbn [map]. rewrite join_cons, !length_append. cbn [map] in IH.
  simpl List.length in *. simpl String.length at 1. lia.
Qed.

Lemma parse_stringify_string (s : string) :
  JSON.parse (JSON.stringify (JString s)) = Some (JString s).
Proof.
  unfold JSON.parse. cbn [JSON.stringify].
  rewrite <- (append_nil_r (JSON.quote_string s)) at 2.
  now rewrite parse_value_string.
Qed.

Lemma parse_stringify_strings (strs : list string) :
  strs <> [] ->
  JSON.parse (JSON.stringify (JArray (map JString strs)))
  = Some (JArray (map JString strs)).
Proof.
  intro Hne. unfold JSON.parse. cbn [JSON.stringify]. rewrite map_map.
  change (map (fun x => JSON.stringify (JString x)) strs)
    with (map JSON.quote_string strs).
  set (body := Str.join "," (map JSON.quote_string strs)).
  assert (B : exists t, body = String Str.quote t).
  { unfold body. destruct strs as [|s [|s' r]]; [congruence| |];
      eexists; reflexivity. }
  destruct B as [t B].
  assert (L : List.length strs < String.length ("[" ++ body ++ "]")).
  { pose proof (length_join_quoted strs). fold body in H.
    rewrite !length_append. simpl. lia. }
  cbn [append]. rewrite B. cbn [append].
  rewrite parse_value_bracket_quote.
  change (String Str.quote (t ++ "]")) with (String Str.quote t ++ "]" ++ "").
  rewrite <- B. unfold body.
  rewrite parse_items_strings; [reflexivity | exact Hne |].
  fold body. rewrite B in L. cbn [append] in L. simpl String.length in L.
  rewrite B. simpl String.length. lia.
Qed.

(** A leaf text goes through [JSON.stringify] and [JSON.parse] unchanged,
    and its literal is sealed for both separators. *)
Lemma leaf_text_facts (v : json) :
  leaf_text v ->
  JSON.parse (JSON.stringify v) = Some v
  /\ sealed "/" (JSON.stringify v) /\ sealed "=" (JSON.stringify v).
Proof.
  intros [[s [-> T]] | [strs [Hne [-> T]]]].
  - destruct (text_ok_scan s T) as [A B]. split; [|split].
    + apply parse_stringify_string.
    + now apply sealed_text; [apply scan_quote_char_slash | |].
    + now apply sealed_text; [apply scan_quote_char_equals | |].
  - assert (F : Forall (fun s => scan "/" false s <> None
                                 /\ scan "=" false s <> None) strs).
    { rewrite forallb_forall in T. apply Forall_forall.
      intros s I. apply text_ok_scan. now apply T. }
    split; [|split].
    + now apply parse_stringify_strings.
    + apply sealed_texts; try reflexivity; try assumption.
      * apply scan_quote_char_slash.
      * eapply Forall_impl; [|exact F]. now intros s [A _].
    + apply sealed_texts; try reflexivity; try assumption.
      * apply scan_quote_char_equals.
      * eapply Forall_impl; [|exact F]. now intros s [_ B].
Qed.

(** ** The batch message and the loop *)

Lemma occurs_numeral (c : ascii) (d : Decimal.uint) :
  JSON.is_digit c = false ->
  occurs c (DecimalString.NilEmpty.string_of_uint d) = false.
Proof.
  intro H. induction d; cbn [DecimalString.NilEmpty.string_of_uint occurs];
    try reflexivity; rewrite IHd, orb_false_r;
    apply Ascii.eqb_neq; intros <-; discriminate H.
Qed.

Lemma scan_numeral (c : ascii) (n : nat) :
  JSON.is_digit c = false -> scan c false (Str.of_nat n) = Some false.
Proof.
  intro H. unfold Str.of_nat. rewrite scan_absent by now apply occurs_numeral.
  now destruct (DecimalString.NilEmpty.string_of_uint _).
Qed.

(** A token splits into its numeral and its literal. *)
Lemma split_token (i : nat) (r : LeafRecord) :
  sealed "=" (JSON.stringify (text r)) ->
  Str.split "==" (token i r) = [Str.of_nat i; JSON.stringify (text r)].
Proof.
  intro S. unfold Str.split, token.
  change (Str.of_nat i ++ "==" ++ JSON.stringify (text r))
    with (Str.join "==" [Str.of_nat i; JSON.stringify (text r)]).
  apply split_join; [discriminate | discriminate | | apply Nat.le_refl].
  intros t [<- | [<- | []]].
  - pose proof (scan_numeral "=" i eq_refl) as N. split.
    + apply (cut_twice_None "=" false). rewrite N. discriminate.
    + intro b. now apply (cut_twice "=" false).
  - now apply (sealed_cut "=").
Qed.

Lemma sealed_token (i : nat) (r : LeafRecord) :
  sealed "/" (JSON.stringify (text r)) -> sealed "/" (token i r).
Proof.
  intros S p. unfold token. rewrite !scan_append.
  unfold Str.of_nat. rewrite scan_absent by now apply occurs_numeral.
  cbn [scan Ascii.eqb Bool.eqb]. apply S.
Qed.

(** The batch splits into its tokens. *)
Lemma split_encode (messages : list LeafRecord) :
  messages <> [] ->
  Forall (fun r => sealed "/" (JSON.stringify (text r))) messages ->
  Str.split "//" (encode messages)
  = map (fun ir => token (fst ir) (snd ir)) (indexed 0 messages).
Proof.
  intros Hne H. unfold Str.split, encode.
  apply split_join; [discriminate | | | apply Nat.le_refl].
  - destruct messages; [congruence | discriminate].
  - intros t I. apply in_map_iff in I as [[i r] [<- I]].
    apply (sealed_cut "/"). apply sealed_token. cbn [snd].
    rewrite Forall_forall in H. apply H.
    clear - I. revert I. generalize 0.
    induction messages as [|x l IH]; intros n I; [contradiction|].
    destruct I as [E | I]; [injection E as _ ->; now left|].
    right. exact (IH _ I).
Qed.

(** The loop, on the tokens of the records themselves: every record is set
    at its own path to its own text. *)
Lemma set_messages_tokens (messages suf : list LeafRecord) :
  forall pre o,
    messages = (pre ++ suf)%list ->
    Forall (fun r => leaf_text (text r)) suf ->
    set_messages messages
      (map (Str.split "==")
           (map (fun ir => token (fst ir) (snd ir))
                (indexed (List.length pre) suf))) o
    = Ok (fold_left (fun acc r => ObjectManager_set (path r) (text r) acc)
                    suf o).
Proof.
  induction suf as [|r suf IH]; intros pre o E H; [reflexivity|].
  inversion H as [|? ? Hr Hs]; subst.
  destruct (leaf_text_facts _ Hr) as [P [_ S]].
  cbn [indexed map fst snd set_messages fold_left].
  rewrite (split_token _ _ S). unfold set_message. cbn [nth_error].
  rewrite array_get_of_nat, nth_error_app2, Nat.sub_diag by apply Nat.le_refl.
  cbn [nth_error]. rewrite P.
  specialize (IH (pre ++ [r])%list).
  rewrite length_app, Nat.add_1_r in IH.
  apply IH; [now rewrite <- app_assoc | exact Hs].
Qed.

Lemma rebuild_encode (messages : list LeafRecord) :
  messages <> [] ->
  Forall (fun r => leaf_text (text r)) messages ->
  rebuild messages (encode messages)
  = Ok (fold_left (fun acc r => ObjectManager_set (path r) (text r) acc)
                  messages []).
Proof.
  intros Hne H. unfold rebuild, newMessages. rewrite split_encode.
  - now apply (set_messages_tokens messages messages []).
  - exact Hne.
  - eapply Forall_impl; [|exact H]. intros r Hr.
    now destruct (leaf_text_facts _ Hr) as [_ [S _]].
Qed.

(** ** Objects *)

Lemma obj_get_set_same (k : string) (v : json) (o : object) :
  obj_get k (obj_set k v o) = Some v.
Proof.
  induction o as [|[k' v'] o IH]; simpl.
  - now rewrite String.eqb_refl.
  - destruct (k' =? k)%string eqn:E; simpl; now rewrite E.
Qed.

Lemma obj_set_twice (k : string) (v v' : json) (o : object) :
  obj_set k v (obj_set k v' o) = obj_set k v o.
Proof.
  induction o as [|[k1 v1] o IH]; simpl.
  - now rewrite String.eqb_refl.
  - destruct (k1 =? k)%string eqn:E; simpl; rewrite E; [reflexivity|].
    now rewrite IH.
Qed.

Lemma obj_set_same (k : string) (v : json) (o : object) :
  obj_get k o = Some v -> obj_set k v o = o.
Proof.
  induction o as [|[k1 v1] o IH]; simpl; [discriminate|].
  destruct (String.eqb_spec k1 k) as [->|].
  - now intros [= ->].
  - intro H. now rewrite IH.
Qed.

Lemma obj_set_fresh (k : string) (v : json) (o : object) :
  obj_get k o = None -> obj_set k v o = (o ++ [(k, v)])%list.
Proof.
  induction o as [|[k1 v1] o IH]; simpl; [reflexivity|].
  destruct (k1 =? k)%string; [discriminate|]. intro H. now rewrite IH.
Qed.

Lemma obj_get_last (k k' : string) (v : json) (o : object) :
  obj_get k o = None ->
  obj_get k (o ++ [(k', v)])%list = if (k' =? k)%string then Some v else None.
Proof.
  induction o as [|[k1 v1] o IH]; simpl; [reflexivity|].
  destruct (k1 =? k)%string; [discriminate | exact IH].
Qed.

Lemma obj_get_None (k : string) (o : object) :
  ~ In k (obj_keys o) -> obj_get k o = None.
Proof.
  induction o as [|[k1 v1] o IH]; simpl; [reflexivity|]. intro H.
  destruct (String.eqb_spec k1 k) as [->|]; [tauto|]. apply IH. tauto.
Qed.

(** ** Setting the leaves of a document *)

Lemma set_keys_under (k : string) (c : list string) (x : json) (o : object) :
  c <> [] ->
  set_keys (k :: c) x o =
  obj_set k (JObject (set_keys c x
                        match obj_get k o with
                        | Some (JObject o') => o'
                        | _ => []
                        end)) o.
Proof. destruct c; [congruence | reflexivity]. Qed.

Lemma set_leaves_app (a b : list (list string * json)) (o : object) :
  set_leaves (a ++ b)%list o = set_leaves b (set_leaves a o).
Proof. apply fold_left_app. Qed.

Lemma set_leaves_under (k : string) (l : list (list string * json)) :
  Forall (fun cv => fst cv <> []) l ->
  forall o inner,
    obj_get k o = Some (JObject inner) ->
    set_leaves (map (fun cv : list string * json => (k :: fst cv, snd cv)) l) o
    = obj_set k (JObject (set_leaves l inner)) o.
Proof.
  induction 1 as [|[c x] l Hc _ IH]; intros o inner G.
  - simpl. symmetry. now apply obj_set_same.
  - cbn [map set_leaves fold_left fst snd] in *.
    rewrite (set_keys_under k c x o Hc), G.
    fold (set_leaves (map (fun cv : list string * json =>
                             (k :: fst cv, snd cv)) l)).
    rewrite (IH _ (set_keys c x inner)) by apply obj_get_set_same.
    now rewrite obj_set_twice.
Qed.

Lemma set_leaves_under_fresh (k : string) (l : list (list string * json))
    (o : object) :
  l <> [] -> Forall (fun cv => fst cv <> []) l -> obj_get k o = None ->
  set_leaves (map (fun cv : list string * json => (k :: fst cv, snd cv)) l) o
  = (o ++ [(k, JObject (set_leaves l []))])%list.
Proof.
  intros Hne H G. destruct l as [|[c x] l]; [congruence|].
  inversion H as [|? ? Hc Hl]; subst. cbn [fst] in Hc.
  cbn [map set_leaves fold_left fst snd].
  rewrite (set_keys_under k c x o Hc), G.
  fold (set_leaves (map (fun cv : list string * json =>
                           (k :: fst cv, snd cv)) l)).
  fold (set_leaves l).
  rewrite (set_leaves_under k l Hl _ (set_keys c x []))
    by apply obj_get_set_same.
  rewrite obj_set_twice. now apply obj_set_fresh.
Qed.

(** ** The documents of the round trip *)

Lemma is_text_strings (items : list json) :
  forallb is_text items = true ->
  exists strs, items = map JString strs /\ forallb text_ok strs = true.
Proof.
  induction items as [|x items IH]; intro H.
  - now exists [].
  - cbn [forallb] in H. apply andb_true_iff in H as [X H].
    destruct (IH H) as [strs [-> T]].
    destruct x; try discriminate. exists (s :: strs).
    cbn [map forallb]. cbn [is_text] in X. now rewrite X, T.
Qed.

Lemma distinct_cons (k : string) (l : list string) :
  distinct (k :: l) = true -> ~ In k l /\ distinct l = true.
Proof.
  simpl. intro H. apply andb_true_iff in H as [N D]. split; [|exact D].
  intro I. apply contains_In in I. rewrite I in N. discriminate.
Qed.

Lemma value_ok_object (es : object) :
  value_ok (JObject es) = true ->
  es <> [] /\ distinct (map fst es) = true
  /\ Forall (fun kv => key_ok (fst kv) = true /\ value_ok (snd kv) = true) es.
Proof.
  cbn [value_ok]. intro H. apply andb_true_iff in H as [H F].
  apply andb_true_iff in H as [N D]. split; [now destruct es|].
  split; [exact D|]. rewrite forallb_forall in F. apply Forall_forall.
  intros [k x] I. specialize (F _ I). now apply andb_true_iff in F.
Qed.

Lemma leaves_of_entries (Q : list string * json -> Prop) (es : object) :
  es <> [] ->
  Forall (fun kv => leaves_entry (fst kv) (snd kv) <> []
                    /\ Forall Q (leaves_entry (fst kv) (snd kv))) es ->
  leaves es <> [] /\ Forall Q (leaves es).
Proof.
  intros Hne H. unfold leaves. split.
  - destruct H as [|[k v] r [N _] _]; [congruence|]. cbn [flat_map fst snd] in *.
    destruct (leaves_entry k v); [congruence | discriminate].
  - clear Hne. induction H as [|[k v] r [_ G] _ IH]; [constructor|].
    cbn [flat_map]. apply Forall_app. now split.
Qed.

(** What a good value yields: at least one leaf; every chain is made of
    good keys; every text is a leaf text. *)
Lemma leaves_entry_ok (v : json) :
  value_ok v = true ->
  forall k, key_ok k = true ->
    leaves_entry k v <> []
    /\ Forall (fun cv => fst cv <> []
                         /\ Forall (fun x => key_ok x = true) (fst cv)
                         /\ leaf_text (snd cv))
              (leaves_entry k v).
Proof.
  induction v as [| | |s|items _|entries IH] using json_induction;
    intros V k K; try discriminate.
  - cbn [value_ok] in V. apply andb_true_iff in V as [T X].
    cbn [leaves_entry]. rewrite T. split; [discriminate|].
    constructor; [|constructor]. cbn [fst snd].
    split; [discriminate | split; [now constructor|]].
    left. now exists s.
  - cbn [value_ok] in V. apply andb_true_iff in V as [N X].
    destruct (is_text_strings _ X) as [strs [-> T]].
    destruct strs as [|s strs]; [discriminate|].
    cbn [leaves_entry map]. split; [discriminate|].
    constructor; [|constructor]. cbn [fst snd].
    split; [discriminate | split; [now constructor|]].
    right. exists (s :: strs). now repeat split.
  - destruct (value_ok_object _ V) as [Hne [_ F]].
    rewrite leaves_entry_object.
    destruct (leaves_of_entries
                (fun cv => fst cv <> []
                           /\ Forall (fun x => key_ok x = true) (fst cv)
                           /\ leaf_text (snd cv)) entries Hne) as [N G].
    { rewrite Forall_forall in *. intros kv I.
      destruct (F kv I) as [K1 V1]. exact (IH kv I V1 _ K1). }
    split.
    + destruct (leaves entries); [congruence | discriminate].
    + rewrite Forall_map. eapply Forall_impl; [|exact G].
      intros [c x] [C [Ks T]]. cbn [fst snd] in *.
      split; [discriminate | split; [now constructor | exact T]].
Qed.

Lemma leaves_ok (d : object) :
  document_ok d = true ->
  leaves d <> []
  /\ Forall (fun cv => fst cv <> []
                       /\ Forall (fun x => key_ok x = true) (fst cv)
                       /\ leaf_text (snd cv))
            (leaves d).
Proof.
  intro V. destruct (value_ok_object _ V) as [Hne [_ F]].
  apply leaves_of_entries; [exact Hne|].
  eapply Forall_impl; [|exact F]. intros [k v] [K1 V1].
  now apply leaves_entry_ok.
Qed.

Lemma set_leaves_entries (es : object) :
  distinct (map fst es) = true ->
  Forall (fun kv => forall o, obj_get (fst kv) o = None ->
            set_leaves (leaves_entry (fst kv) (snd kv)) o = (o ++ [kv])%list)
         es ->
  forall acc,
    (forall k, In k (map fst es) -> obj_get k acc = None) ->
    set_leaves (leaves es) acc = (acc ++ es)%list.
Proof.
  intros D H. induction H as [|[k v] r Hkv _ IH]; intros acc Fresh.
  - now rewrite app_nil_r.
  - cbn [map fst] in D. apply distinct_cons in D as [N D].
    unfold leaves. cbn [flat_map]. rewrite set_leaves_app.
    fold (leaves r). cbn [fst snd] in Hkv.
    rewrite Hkv by (apply Fresh; now left).
    rewrite (IH D).
    + now rewrite <- app_assoc.
    + intros k' I. rewrite obj_get_last by (apply Fresh; now right).
      destruct (String.eqb_spec k k') as [->|]; [contradiction | reflexivity].
Qed.

(** Setting the leaves of a good value under a fresh key rebuilds the
    value under that key. *)
Lemma set_leaves_entry (v : json) :
  value_ok v = true ->
  forall k o, obj_get k o = None ->
    set_leaves (leaves_entry k v) o = (o ++ [(k, v)])%list.
Proof.
  induction v as [| | |s|items _|entries IH] using json_induction;
    intros V k o G; try discriminate.
  - cbn [value_ok] in V. apply andb_true_iff in V as [T _].
    cbn [leaves_entry]. rewrite T. cbn. now apply obj_set_fresh.
  - cbn [value_ok] in V. apply andb_true_iff in V as [N _].
    destruct items; [discriminate|]. cbn. now apply obj_set_fresh.
  - destruct (leaves_ok entries V) as [N L].
    destruct (value_ok_object _ V) as [_ [D F]].
    rewrite leaves_entry_object, set_leaves_under_fresh; [|exact N| |exact G].
    + rewrite (set_leaves_entries entries D); [reflexivity| |reflexivity].
      rewrite Forall_forall in *. intros [k1 v1] I o1 G1.
      destruct (F _ I) as [_ V1]. exact (IH _ I V1 k1 o1 G1).
    + eapply Forall_impl; [|exact L]. now intros cv [C _].
Qed.

Lemma set_leaves_document (d : object) :
  document_ok d = true -> set_leaves (leaves d) [] = d.
Proof.
  intro V. destruct (value_ok_object _ V) as [_ [D F]].
  rewrite (set_leaves_entries d D); [reflexivity| |reflexivity].
  eapply Forall_impl; [|exact F]. intros [k v] [_ V1] o G.
  now apply set_leaves_entry.
Qed.

(** Splitting the path of a chain of good keys gives the chain back. *)
Lemma split_path_from (c : list string) :
  c <> [] -> Forall (fun k => key_ok k = true) c ->
  Str.split "/" (path_from None c) = c.
Proof.
  intros Hne H. destruct c as [|k r]; [congruence|].
  inversion H as [|? ? K _]; subst. unfold key_ok in K.
  apply andb_true_iff in K as [T _]. rewrite (path_from_None k r T).
  change "/" with (once "/"%char). apply split_once; [discriminate|].
  eapply Forall_impl; [|exact H]. intros x X. unfold key_ok in X.
  apply andb_true_iff in X as [_ X]. now apply negb_true_iff in X.
Qed.

Lemma fold_left_map_ext {A B C : Type} (f : C -> B -> C) (g : C -> A -> C)
    (h : A -> B) (l : list A) (o : C) :
  (forall x acc, In x l -> f acc (h x) = g acc x) ->
  fold_left f (map h l) o = fold_left g l o.
Proof.
  revert o; induction l as [|x l IH]; intros o H; [reflexivity|].
  cbn [map fold_left]. rewrite H by now left. apply IH.
  intros y acc I. apply H. now right.
Qed.

(** C1, as the code has it.  For a document that is a non-empty mapping
    with distinct keys, none of them empty or holding a ["/"], to non-empty
    strings, non-empty arrays of strings or mappings of the same kind, and
    in which no string holds ["//"] or ["=="]: with a backend that gives
    the batch message back unchanged, extraction, encoding, decoding and
    rebuild reproduce the document, same keys in the same order, same
    nesting, same leaf values. *)
Theorem C1_round_trip_identity_backend (d : object) :
  document_ok d = true ->
  pipeline (fun message => Some message) (JObject d) = Ok d.
Proof.
  intro V. destruct (leaves_ok d V) as [N L].
  unfold pipeline, resolveMessages. cbn [Object_entries].
  rewrite resolvePaths_leaves, rebuild_encode.
  - f_equal. rewrite <- (set_leaves_document d V) at 2. unfold set_leaves.
    apply fold_left_map_ext. intros [c x] acc I. cbn [path text fst snd].
    unfold ObjectManager_set. rewrite Forall_forall in L.
    destruct (L _ I) as [C [K _]]. now rewrite split_path_from.
  - destruct (leaves d); [congruence | discriminate].
  - rewrite Forall_map. eapply Forall_impl; [|exact L].
    now intros [c x] [_ [_ T]].
Qed.

Lemma C1_round_trip_identity_backend_witness :
  pipeline (fun message => Some message)
    (JObject [("greeting", JString "hello/=");
              ("nested", JObject [("farewell", JArray [JString "bye"; JString ""]);
                                  ("deep", JObject [("x", JString "=/=")])])])
  = Ok [("greeting", JString "hello/=");
        ("nested", JObject [("farewell", JArray [JString "bye"; JString ""]);
                            ("deep", JObject [("x", JString "=/=")])])].
Proof.
  apply (C1_round_trip_identity_backend
           [("greeting", JString "hello/=");
            ("nested", JObject [("farewell", JArray [JString "bye"; JString ""]);
                                ("deep", JObject [("x", JString "=/=")])])]).
  reflexivity.
Defined.

(** C1 as stated fails: the JSON literal of a text does not hide the
    separators.  A leaf text holding ["//"] is cut in two by the decoder,
    one holding ["=="] loses its tail, and either way the rebuild fails
    instead of giving the document back. *)
Lemma C1_counterexample :
  pipeline (fun message => Some message) (JObject [("a", JString "x//y")])
  <> Ok [("a", JString "x//y")]
  /\ encode (resolvePaths [("a", JString "x//y")] None)
     = "0==" ++ quoted "x//y"
  /\ Str.split "//" ("0==" ++ quoted "x//y")
     = ["0==" ++ String Str.quote "x"; "y" ++ String Str.quote ""]
  /\ pipeline (fun message => Some message) (JObject [("a", JString "x//y")])
     = Err SyntaxError
  /\ pipeline (fun message => Some message) (JObject [("a", JString "x==y")])
     = Err SyntaxError.
Proof. repeat split. discriminate. Qed.

(** ** Paths and key chains *)

Lemma leaves_entry_head (k : string) (v : json) :
  Forall (fun cv => exists rest, fst cv = k :: rest) (leaves_entry k v).
Proof.
  destruct v; cbn [leaves_entry]; try constructor.
  - destruct (Str.truthy s); repeat constructor. now exists [].
  - destruct items; repeat constructor. now exists [].
  - rewrite Forall_map. apply Forall_forall. intros cv _. now eexists.
Qed.

Lemma leaves_head (d : object) :
  Forall (fun cv => exists k rest, fst cv = k :: rest /\ In k (map fst d))
         (leaves d).
Proof.
  unfold leaves. induction d as [|[k v] r IH]; [constructor|].
  cbn [flat_map]. apply Forall_app. split.
  - eapply Forall_impl; [|apply leaves_entry_head].
    intros cv [rest E]. exists k, rest. split; [exact E | now left].
  - eapply Forall_impl; [|exact IH].
    intros cv [k' [rest [E I]]]. exists k', rest. split; [exact E | now right].
Qed.

(** Where the code agrees with the specification on the records: on every
    document whose top-level keys are not empty. *)
Lemma resolvePaths_extract_spec (d : object) :
  Forall (fun kv => Str.truthy (fst kv) = true) d ->
  resolvePaths d None = extract_spec d.
Proof.
  intro T. rewrite resolvePaths_leaves. unfold extract_spec.
  apply map_ext_in. intros [c x] I. cbn [fst snd]. f_equal.
  pose proof (leaves_head d) as H. rewrite Forall_forall in H.
  destruct (H _ I) as [k [rest [E K]]]. cbn [fst] in E. subst c.
  apply path_from_None. apply in_map_iff in K as [kv [<- K]].
  rewrite Forall_forall in T. now apply T.
Qed.

Lemma leaves_entry_slash_free (v : json) :
  slash_free v = true ->
  forall k, occurs "/" k = false ->
    Forall (fun cv => Forall (fun x => occurs "/" x = false) (fst cv))
           (leaves_entry k v).
Proof.
  induction v as [| | |s|items _|entries IH] using json_induction;
    intros V k K; cbn [leaves_entry]; try constructor.
  - destruct (Str.truthy s); repeat constructor. exact K.
  - destruct items; repeat constructor. exact K.
  - rewrite Forall_map. cbn [slash_free] in V. rewrite forallb_forall in V.
    apply Forall_forall. intros cv I. cbn [fst]. constructor; [exact K|].
    apply in_flat_map in I as [[k1 v1] [I1 I]].
    specialize (V _ I1). apply andb_true_iff in V as [K1 V1].
    apply negb_true_iff in K1. rewrite Forall_forall in IH.
    specialize (IH _ I1 V1 k1 K1). rewrite Forall_forall in IH.
    exact (IH _ I).
Qed.

(** Where splitting the recorded path gives the key chain back: on every
    document whose keys hold no ["/"] and whose top-level keys are not
    empty. *)
Lemma split_recorded_paths (d : object) :
  slash_free (JObject d) = true ->
  Forall (fun kv => Str.truthy (fst kv) = true) d ->
  Forall (fun cv => Str.split "/" (path_from None (fst cv)) = fst cv)
         (leaves d).
Proof.
  intros V T. apply Forall_forall. intros [c x] I. cbn [fst].
  pose proof (leaves_head d) as H. rewrite Forall_forall in H.
  destruct (H _ I) as [k [rest [E K]]]. cbn [fst] in E. subst c.
  assert (Tk : Str.truthy k = true).
  { apply in_map_iff in K as [kv [<- K]]. rewrite Forall_forall in T.
    now apply T. }
  rewrite (path_from_None k rest Tk).
  change "/" with (once "/"%char). apply split_once; [discriminate|].
  unfold leaves in I. apply in_flat_map in I as [[k1 v1] [I1 I]].
  cbn [slash_free] in V. rewrite forallb_forall in V.
  specialize (V _ I1). apply andb_true_iff in V as [K1 V1].
  apply negb_true_iff in K1.
  pose proof (leaves_entry_slash_free v1 V1 k1 K1) as F.
  rewrite Forall_forall in F. exact (F _ I).
Qed.

(** C6 at the failing input.  In the document that maps the empty key to
    the mapping of [b] to [x], the leaf has the key chain empty key, [b];
    joined by slashes this is [/b], the path the specification asks for,
    but [resolvePaths] records the path [b]: it takes the empty current
    path for a missing one.  Below the top level the same empty key is
    joined like any other key.  On the example of the specification the
    two agree: one record, for [c]. *)
Theorem C6_extraction_empty_key_path :
  leaves [("", JObject [("b", JString "x")])] = [([""; "b"], JString "x")]
  /\ extract_spec [("", JObject [("b", JString "x")])]
     = [mkLeaf "/b" (JString "x")]
  /\ resolvePaths [("", JObject [("b", JString "x")])] None
     = [mkLeaf "b" (JString "x")]
  /\ resolvePaths [("a", JObject [("", JObject [("b", JString "x")])])] None
     = [mkLeaf "a//b" (JString "x")]
  /\ resolvePaths [("a", JString ""); ("b", JArray []); ("c", JString "hi");
                   ("n", JNumber "1"); ("t", JBool true); ("z", JNull);
                   ("e", JObject [])] None
     = [mkLeaf "c" (JString "hi")].
Proof. repeat split. Qed.

(** C10 at the failing input.  No key of the document that maps the empty
    key to the mapping of [b] to [x] holds a ["/"], yet the recorded path
    [b] splits into the chain [b], not into the chain empty key, [b]; the
    records are those of the document that maps [b] to [x], so nothing
    after the extraction can tell the two apart, and the rebuilt document
    has lost a level.  The other half of the claim holds: a key that holds
    a ["/"] is rebuilt as two nested levels. *)
Theorem C10_empty_key_chain_not_recovered :
  slash_free (JObject [("", JObject [("b", JString "x")])]) = true
  /\ map fst (leaves [("", JObject [("b", JString "x")])]) = [[""; "b"]]
  /\ map (fun r => Str.split "/" (path r))
         (resolvePaths [("", JObject [("b", JString "x")])] None)
     = [["b"]]
  /\ resolvePaths [("", JObject [("b", JString "x")])] None
     = resolvePaths [("b", JString "x")] None
  /\ pipeline (fun message => Some message)
              (JObject [("", JObject [("b", JString "x")])])
     = Ok [("b", JString "x")]
  /\ pipeline (fun message => Some message) (JObject [("a/b", JString "x")])
     = Ok [("a", JObject [("b", JString "x")])].
Proof. repeat split. Qed.

(** * Further properties *)

(** ** The bare command *)

(** An accepted value of [--to], long name or short name, is handed to the
    backend as it was typed, with the words of the phrase joined by a
    space. *)
Theorem accepted_language_reaches_backend
    (backend : string -> string -> option string)
    (value : string) (message : list string) (w : World) :
  In value (longName (db w)) \/ In value (shortName (db w)) ->
  message <> [] ->
  calls (fst (parse backend (Some value) false (Bare message) w))
  = (calls w ++ [(Str.join " " message, value)])%list.
Proof.
  intros I M. unfold parse, verifyString.
  assert (E : negb (contains (longName (db w)) value)
              && negb (contains (shortName (db w)) value) = false).
  { destruct I as [I | I]; apply contains_In in I; rewrite I;
      [reflexivity | apply andb_false_r]. }
  rewrite E. unfold run. cbn [opt_languages opt_to].
  destruct message as [|m ms]; [congruence|]. cbn [andb].
  unfold translate, call_backend, target_language.
  destruct (backend _ _); reflexivity.
Qed.

Lemma accepted_language_reaches_backend_witness :
  calls (fst (parse (fun m _ => Some m) (Some "French") false
                (Bare ["good"; "night"])
                (mkWorld (mkDatabase (Some "en") ["English"; "French"]
                            ["en"; "fr"]) [] [] [] [])))
  = [("good night", "French")].
Proof.
  apply (accepted_language_reaches_backend (fun m _ => Some m) "French"
           ["good"; "night"]
           (mkWorld (mkDatabase (Some "en") ["English"; "French"]
                       ["en"; "fr"]) [] [] [] [])).
  - left. simpl. tauto.
  - discriminate.
Defined.

(** A command line without a phrase never reaches the backend and never
    writes a file, as long as the catalog holds no empty name.  The guard
    of [run] tests the truth of [options.to], so the empty name is the one
    value that slips through: when the catalog accepts it, the backend is
    called with an empty text. *)
Theorem empty_phrase_never_translated
    (backend : string -> string -> option string)
    (to_value : option string) (languages_flag : bool) (w : World) :
  (~ In "" (longName (db w)) -> ~ In "" (shortName (db w)) ->
   calls (fst (parse backend to_value languages_flag (Bare []) w)) = calls w
   /\ files (fst (parse backend to_value languages_flag (Bare []) w))
      = files w)
  /\ (In "" (shortName (db w)) ->
      calls (fst (parse backend (Some "") false (Bare []) w))
      = (calls w ++ [("", "")])%list).
Proof.
  split.
  - intros HL HS. unfold parse, verifyString.
    destruct to_value as [v|].
    + destruct (negb (contains (longName (db w)) v)
                && negb (contains (shortName (db w)) v)) eqn:E;
        [now split|].
      assert (T : Str.truthy v = true).
      { destruct v; [|reflexivity]. exfalso.
        apply andb_false_iff in E as [E | E]; apply negb_false_iff in E;
          apply contains_In in E; contradiction. }
      unfold run. cbn [opt_languages opt_to options_count].
      destruct languages_flag; cbn; rewrite ?T; now split.
    + unfold run. cbn [opt_languages opt_to options_count].
      destruct languages_flag; cbn; now split.
  - intro I. unfold parse, verifyString.
    apply contains_In in I. rewrite I, andb_false_r.
    unfold run, translate, call_backend. cbn.
    destruct (backend "" ""); reflexivity.
Qed.

Lemma empty_phrase_never_translated_witness :
  calls (fst (parse (fun m _ => Some m) (Some "fr") false (Bare [])
                (mkWorld (mkDatabase None ["French"] ["fr"]) [] [] [] [])))
  = [].
Proof.
  destruct (empty_phrase_never_translated (fun m _ => Some m) (Some "fr") false
              (mkWorld (mkDatabase None ["French"] ["fr"]) [] [] [] []))
    as [H _].
  destruct H as [C _].
  - simpl. intuition discriminate.
  - simpl. intuition discriminate.
  - exact C.
Defined.

(** One command line, at most one call of the backend; none at all for the
    [to] and [web] commands and for the bare command with [--languages],
    whatever else was typed. *)
Theorem at_most_one_backend_call
    (backend : string -> string -> option string)
    (to_value : option string) (languages_flag : bool) (c : command)
    (w : World) :
  (calls (fst (parse backend to_value languages_flag c w)) = calls w
   \/ exists message target,
        calls (fst (parse backend to_value languages_flag c w))
        = (calls w ++ [(message, target)])%list)
  /\ match c with
     | CmdTo _ | CmdWeb =>
         calls (fst (parse backend to_value languages_flag c w)) = calls w
     | Bare _ =>
         languages_flag = true ->
         calls (fst (parse backend to_value languages_flag c w)) = calls w
     | CmdFile _ => True
     end.
Proof.
  unfold parse.
  destruct to_value as [v|]; [destruct (verifyString (db w) v)|];
    destruct c; cbn [fst calls]; try (split; [now left | trivial]);
    try (split; [now left | intros ->; reflexivity]);
    unfold run, translate, translateFile, translateFile_json,
      translateFile_txt, call_backend;
    (split;
     [ repeat (break_match; cbn [fst calls writeFile console_log]);
       try (now left); right; eexists; eexists; reflexivity
     | try exact I; try (intros ->; reflexivity) ]).
Qed.

Lemma at_most_one_backend_call_witness :
  calls (fst (parse (fun m _ => Some m) None true (Bare ["hello"])
                (mkWorld (mkDatabase None [] []) [] [] [] [])))
  = [].
Proof.
  destruct (at_most_one_backend_call (fun m _ => Some m) None true
              (Bare ["hello"]) (mkWorld (mkDatabase None [] []) [] [] [] []))
    as [_ H].
  exact (H eq_refl).
Defined.

(** ** The catalog and the default language *)

Lemma nth_error_indexed {A : Type} (l : list A) (i n : nat) :
  nth_error (indexed i l) n =
  match nth_error l n with
  | Some x => Some (i + n, x)
  | None => None
  end.
Proof.
  revert i n; induction l as [|x l IH]; intros i [|n]; cbn; try reflexivity.
  - now rewrite Nat.add_0_r.
  - rewrite IH. destruct (nth_error l n); [|reflexivity].
    now rewrite Nat.add_succ_r.
Qed.

Lemma length_indexed {A : Type} (l : list A) (i : nat) :
  List.length (indexed i l) = List.length l.
Proof. revert i; induction l as [|x l IH]; intro i; cbn; [|rewrite IH]; auto. Qed.

(** [languages()] lists the catalog position by position: one line per long
    name, and the line of a position pairs its long name with the short
    name of the same position; a long name without a short name is shown
    with [undefined]. *)
Theorem languages_aligned (d : Database) :
  List.length (languages d) = List.length (longName d)
  /\ (forall i long short,
        nth_error (longName d) i = Some long ->
        nth_error (shortName d) i = Some short ->
        nth_error (languages d) i = Some ("  " ++ long ++ " (" ++ short ++ ")"))
  /\ (forall i long,
        nth_error (longName d) i = Some long ->
        nth_error (shortName d) i = None ->
        nth_error (languages d) i = Some ("  " ++ long ++ " (undefined)")).
Proof.
  unfold languages. split; [|split].
  - now rewrite length_map, length_indexed.
  - intros i long short L S. rewrite nth_error_map, nth_error_indexed, L.
    cbn. now rewrite (nth_error_nth _ _ _ S).
  - intros i long L S. rewrite nth_error_map, nth_error_indexed, L. cbn.
    apply nth_error_None in S. now rewrite nth_overflow.
Qed.

Lemma languages_aligned_witness :
  nth_error (languages (mkDatabase None ["English"; "French"] ["en"; "fr"])) 1
  = Some "  French (fr)".
Proof.
  destruct (languages_aligned (mkDatabase None ["English"; "French"]
                                 ["en"; "fr"])) as [_ [H _]].
  apply (H 1 "French" "fr"); reflexivity.
Defined.

(** The [txt] branch, step by step. *)
Lemma translateFile_txt_steps
    (backend : string -> string -> option string) (p : string) (w : World)
    (content : string) :
  readFile p w = Some content -> file_type p = Some "txt" ->
  translateFile backend p w =
  let w1 := mkWorld (db w) (files w)
              (calls w ++ [(content, target_language None (db w))])%list
              (console w) (opened w) in
  match backend content (target_language None (db w)) with
  | Some translated =>
      (console_log (completed (pathTranslated p ".txt"))
         (writeFile (pathTranslated p ".txt") translated w1), Ok tt)
  | None => (w1, Err BackendError)
  end.
Proof.
  intros R T. unfold translateFile. rewrite (readFile_isFile _ _ _ R), T.
  cbn [negb String.eqb Ascii.eqb Bool.eqb].
  unfold translateFile_txt, call_backend. rewrite R.
  now destruct (backend content (target_language None (db w))).
Qed.

(** After [to], the stored answer is the target of the next phrase typed
    without [--to], and of the next file translation: the backend is called
    with it, as it was stored. *)
Theorem stored_default_is_used
    (backend : string -> string -> option string) (language : string)
    (w : World) :
  (forall message, message <> [] ->
     calls (fst (run backend message (mkOptions None false)
                   (fst (to language w))))
     = (calls w ++ [(Str.join " " message, language)])%list)
  /\ (forall p content,
        readFile p w = Some content -> file_type p = Some "txt" ->
        calls (fst (translateFile backend p (fst (to language w))))
        = (calls w ++ [(content, language)])%list).
Proof.
  split.
  - intros message M. unfold run, to. cbn [opt_languages opt_to fst].
    destruct message as [|m ms]; [congruence|]. cbn [andb].
    unfold translate, call_backend, target_language. cbn.
    destruct (backend _ _); reflexivity.
  - intros p content R T.
    rewrite (translateFile_txt_steps backend p _ content); [|exact R|exact T].
    cbn. destruct (backend content language); reflexivity.
Qed.

Lemma stored_default_is_used_witness :
  calls (fst (run (fun m _ => Some m) ["hello"] (mkOptions None false)
                (fst (to "pt" (mkWorld (mkDatabase None [] []) [] [] [] [])))))
  = [("hello", "pt")].
Proof.
  destruct (stored_default_is_used (fun m _ => Some m) "pt"
              (mkWorld (mkDatabase None [] []) [] [] [] [])) as [H _].
  apply (H ["hello"]). discriminate.
Defined.

(** When the backend refuses every call, no command line writes a file, and
    a phrase or a readable text file ends in the backend error. *)
Theorem failing_backend_writes_nothing
    (to_value : option string) (languages_flag : bool) (c : command)
    (w : World) :
  files (fst (parse (fun _ _ => None) to_value languages_flag c w)) = files w
  /\ (forall message, message <> [] ->
        snd (run (fun _ _ => None) message (mkOptions to_value false) w)
        = Err BackendError)
  /\ (forall p content,
        readFile p w = Some content -> file_type p = Some "txt" ->
        snd (translateFile (fun _ _ => None) p w) = Err BackendError).
Proof.
  split; [|split].
  - unfold parse.
    destruct to_value as [v|]; [destruct (verifyString (db w) v)|];
      destruct c; cbn [fst files]; try reflexivity;
      unfold run, translate, to, translateFile, translateFile_json,
        translateFile_txt, call_backend;
      repeat (break_match; cbn [fst files console_log db_set_defaultLanguage]);
      reflexivity.
  - intros message M. unfold run. cbn [opt_languages].
    destruct message; [congruence | reflexivity].
  - intros p content R T.
    now rewrite (translateFile_txt_steps _ p w content R T).
Qed.

Lemma failing_backend_writes_nothing_witness :
  snd (run (fun _ _ => None) ["hello"] (mkOptions (Some "fr") false)
         (mkWorld (mkDatabase None ["French"] ["fr"]) [] [] [] []))
  = Err BackendError.
Proof.
  destruct (failing_backend_writes_nothing (Some "fr") false (Bare ["hello"])
              (mkWorld (mkDatabase None ["French"] ["fr"]) [] [] [] []))
    as [_ [H _]].
  apply (H ["hello"]). discriminate.
Defined.

(** ** Files *)

(** A text file goes to the backend whole, in one call, and the answer is
    written as it came under the translated name; the command reports that
    name on the console. *)
Theorem text_file_translated_verbatim
    (backend : string -> string -> option string) (p : string) (w : World)
    (content translated : string) :
  readFile p w = Some content ->
  file_type p = Some "txt" ->
  backend content (target_language None (db w)) = Some translated ->
  snd (translateFile backend p w) = Ok tt
  /\ readFile (pathTranslated p ".txt") (fst (translateFile backend p w))
     = Some translated
  /\ files (fst (translateFile backend p w))
     = (pathTranslated p ".txt", translated) :: files w
  /\ calls (fst (translateFile backend p w))
     = (calls w ++ [(content, target_language None (db w))])%list
  /\ console (fst (translateFile backend p w))
     = (console w ++ [completed (pathTranslated p ".txt")])%list.
Proof.
  intros R T B. rewrite (translateFile_txt_steps backend p w content R T), B.
  cbn. unfold readFile. cbn. rewrite String.eqb_refl. now repeat split.
Qed.

Lemma text_file_translated_verbatim_witness :
  readFile "notes-translated.txt"
    (fst (translateFile (fun m _ => Some ("<" ++ m ++ ">")) "docs/notes.txt"
            (mkWorld (mkDatabase None [] []) [("docs/notes.txt", "bom dia")]
                     [] [] [])))
  = Some "<bom dia>".
Proof.
  destruct (text_file_translated_verbatim (fun m _ => Some ("<" ++ m ++ ">"))
              "docs/notes.txt"
              (mkWorld (mkDatabase None [] []) [("docs/notes.txt", "bom dia")]
                       [] [] [])
              "bom dia" "<bom dia>") as [_ [H _]];
    [reflexivity | reflexivity | reflexivity | exact H].
Defined.

(** A file translation never looks at [--to]: once the value is accepted
    the command is [translateFile] alone, and whatever call it makes to the
    backend names the stored default language, or ["en"] when there is
    none.  A path that is no file is reported on the console and nothing
    else happens; the command does not fail. *)
Theorem file_translation_ignores_to
    (backend : string -> string -> option string) (p : string) (w : World) :
  (forall value languages_flag,
     In value (longName (db w)) \/ In value (shortName (db w)) ->
     parse backend (Some value) languages_flag (CmdFile p) w
     = translateFile backend p w)
  /\ (calls (fst (translateFile backend p w)) = calls w
      \/ exists message,
           calls (fst (translateFile backend p w))
           = (calls w ++ [(message,
                           match defaultLanguage (db w) with
                           | Some persisted => persisted
                           | None => "en"
                           end)])%list)
  /\ (readFile p w = None ->
      translateFile backend p w = (console_log "! File not found!" w, Ok tt)).
Proof.
  split; [|split].
  - intros value fl I. unfold parse, verifyString.
    assert (E : negb (contains (longName (db w)) value)
                && negb (contains (shortName (db w)) value) = false).
    { destruct I as [I | I]; apply contains_In in I; rewrite I;
        [reflexivity | apply andb_false_r]. }
    now rewrite E.
  - unfold translateFile, translateFile_json, translateFile_txt, call_backend,
      target_language.
    repeat (break_match; cbn [fst calls writeFile console_log]);
      try (now left); right; eexists; reflexivity.
  - intro R. unfold translateFile, isFile. unfold readFile in R. now rewrite R.
Qed.

Lemma file_translation_ignores_to_witness :
  parse (fun m _ => Some m) (Some "fr") false (CmdFile "a.txt")
    (mkWorld (mkDatabase None ["French"] ["fr"]) [("a.txt", "hi")] [] [] [])
  = translateFile (fun m _ => Some m) "a.txt"
      (mkWorld (mkDatabase None ["French"] ["fr"]) [("a.txt", "hi")] [] [] []).
Proof.
  destruct (file_translation_ignores_to (fun m _ => Some m) "a.txt"
              (mkWorld (mkDatabase None ["French"] ["fr"]) [("a.txt", "hi")]
                       [] [] [])) as [H _].
  apply H. right. simpl. tauto.
Defined.

(** ** Names of files *)

Lemma occurs_append (c : ascii) (a b : string) :
  occurs c (a ++ b) = occurs c a || occurs c b.
Proof.
  induction a as [|x a IH]; cbn [append occurs]; [reflexivity|].
  now rewrite IH, orb_assoc.
Qed.

Lemma after_last_absent (c : ascii) (s : string) :
  occurs c s = false -> after_last c s = s.
Proof.
  destruct s as [|x t]; [reflexivity|]. cbn [occurs after_last]. intro H.
  apply orb_false_iff in H as [-> ->]. reflexivity.
Qed.

Lemma after_last_free (c : ascii) (s : string) :
  occurs c (after_last c s) = false.
Proof.
  induction s as [|x t IH]; [reflexivity|]. cbn [after_last].
  destruct (occurs c t) eqn:O; [exact IH|].
  destruct (x =? c)%char eqn:E; [exact O|]. cbn [occurs]. now rewrite E, O.
Qed.

Lemma after_last_skip (c : ascii) (a b : string) :
  after_last c (a ++ String c b) = if occurs c b then after_last c b else b.
Proof.
  induction a as [|x a IH]; cbn [append after_last].
  - now rewrite Ascii.eqb_refl.
  - rewrite occurs_append. cbn [occurs].
    rewrite Ascii.eqb_refl, orb_true_r. exact IH.
Qed.




Lemma cut_once_Some (c : ascii) (s a b : string) :
  Str.cut (once c) s = Some (a, b) ->
  s = a ++ String c b /\ occurs c a = false.
Proof.
  revert a; induction s as [|x t IH]; intros a H.
  - rewrite cut_empty in H. discriminate.
  - rewrite cut_unfold, prefix_once in H. destruct (x =? c)%char eqn:E.
    + injection H as <- <-. apply Ascii.eqb_eq in E as ->. now split.
    + destruct (Str.cut (once c) t) as [[a' b']|]; [|discriminate].
      injection H as <- <-. destruct (IH a' eq_refl) as [-> O].
      split; [reflexivity|]. cbn [occurs]. now rewrite E, O.
Qed.

Lemma cut_once_None (c : ascii) (s : string) :
  Str.cut (once c) s = None -> occurs c s = false.
Proof.
  intro H. destruct (occurs c s) eqn:O; [|reflexivity].
  now apply cut_once_present in O.
Qed.

Lemma at_last_cons (x : string) (l : list string) :
  l <> [] -> at_last (x :: l) = at_last l.
Proof.
  intro H. unfold at_last. cbn [rev].
  destruct (rev l) as [|y r] eqn:R; [|reflexivity].
  apply (f_equal (@rev string)) in R. rewrite rev_involutive in R.
  now subst l.
Qed.

Lemma split_fuel_nonempty (fuel : nat) (sep s : string) :
  Str.split_fuel fuel sep s <> [].
Proof. destruct fuel; cbn; [|destruct (Str.cut sep s) as [[a b]|]]; discriminate. Qed.

(** The last piece of a split on one character is what follows the last
    occurrence of the character. *)
Lemma at_last_split_fuel (c : ascii) (fuel : nat) :
  forall s, String.length s <= fuel ->
    at_last (Str.split_fuel fuel (once c) s) = Some (after_last c s).
Proof.
  induction fuel as [|f IH]; intros s L.
  - destruct s; [reflexivity | simpl in L; lia].
  - cbn [Str.split_fuel]. destruct (Str.cut (once c) s) as [[a b]|] eqn:C.
    + destruct (cut_once_Some _ _ _ _ C) as [-> O].
      rewrite at_last_cons by apply split_fuel_nonempty.
      rewrite IH.
      * f_equal. rewrite after_last_skip.
        destruct (occurs c b) eqn:Ob; [reflexivity|].
        now apply after_last_absent.
      * rewrite length_append in L. simpl in L. lia.
    + cbn. now rewrite (after_last_absent _ _ (cut_once_None _ _ C)).
Qed.

Lemma at_last_split (c : ascii) (s : string) :
  at_last (Str.split (once c) s) = Some (after_last c s).
Proof. now apply at_last_split_fuel. Qed.

Lemma file_name_after_last (p : string) : file_name p = after_last "/" p.
Proof.
  unfold file_name. change "/" with (once "/"%char). now rewrite at_last_split.
Qed.


Lemma append_cancel (a x y : string) : a ++ x = a ++ y -> x = y.
Proof. intro H. now destruct (append_same_length a a x y H eq_refl). Qed.

(** The name [translateFile] writes to holds no slash, whatever the input
    path, and it is never the input path itself. *)
Lemma pathTranslated_fresh (p ext : string) :
  occurs "/" ext = false ->
  occurs "/" (pathTranslated p ext) = false /\ pathTranslated p ext <> p.
Proof.
  intro He. unfold pathTranslated. rewrite file_name_after_last.
  rewrite (split_first "." _ ltac:(discriminate)).
  pose proof (after_last_free "/" p) as Hn.
  set (n := after_last "/" p) in *.
  change "." with (once "."%char).
  destruct (Str.cut (once "."%char) n) as [[a b]|] eqn:C.
  - destruct (cut_once_Some _ _ _ _ C) as [En Oa].
    assert (Sa : occurs "/" a = false).
    { rewrite En, occurs_append in Hn. now apply orb_false_iff in Hn as [-> _]. }
    split.
    + rewrite !occurs_append, Sa, He. reflexivity.
    + intro E.
      assert (Op : occurs "/" p = false).
      { rewrite <- E, !occurs_append, Sa, He. reflexivity. }
      assert (Ep : n = p) by now apply after_last_absent.
      rewrite <- Ep, En in E. apply append_cancel in E. discriminate.
  - split.
    + rewrite !occurs_append, Hn, He. reflexivity.
    + intro E.
      assert (Op : occurs "/" p = false).
      { rewrite <- E, !occurs_append, Hn, He. reflexivity. }
      assert (Ep : n = p) by now apply after_last_absent.
      rewrite Ep in E. apply (f_equal String.length) in E.
      rewrite !length_append in E. simpl in E. lia.
Qed.

(** [translateFile] never touches its input: the file it writes, if any,
    has another name, without a directory, so the input reads after the
    command as it read before. *)
Theorem input_file_never_overwritten
    (backend : string -> string -> option string) (p : string) (w : World) :
  readFile p (fst (translateFile backend p w)) = readFile p w
  /\ pathTranslated p ".json" <> p /\ pathTranslated p ".txt" <> p
  /\ occurs "/" (pathTranslated p ".json") = false
  /\ occurs "/" (pathTranslated p ".txt") = false.
Proof.
  destruct (pathTranslated_fresh p ".json" eq_refl) as [SJ NJ].
  destruct (pathTranslated_fresh p ".txt" eq_refl) as [ST NT].
  repeat split; try assumption.
  apply String.eqb_neq in NJ, NT.
  unfold translateFile, translateFile_json, translateFile_txt, call_backend,
    readFile.
  repeat (rewrite ?NJ, ?NT; break_match;
          cbn [fst files writeFile console_log lookup_file]);
    rewrite ?NJ, ?NT; congruence.
Qed.



(** ** Extraction *)




(** ** Documents without a leaf *)




(** ** The codec *)

(** Decoding what [encode] made gives back, record after record and in the
    same order, the numeral of the position and the JSON literal of the
    text, as long as there is a record and the texts are strings or arrays
    of strings free of ["//"] and ["=="]. *)
Theorem decode_inverts_encode (messages : list LeafRecord) :
  messages <> [] ->
  Forall (fun r => leaf_text (text r)) messages ->
  newMessages (encode messages)
  = map (fun ir : nat * LeafRecord =>
           [Str.of_nat (fst ir); JSON.stringify (text (snd ir))])
        (indexed 0 messages)
  /\ List.length (newMessages (encode messages)) = List.length messages.
Proof.
  intros Hne H.
  assert (E : newMessages (encode messages)
              = map (fun ir : nat * LeafRecord =>
                       [Str.of_nat (fst ir); JSON.stringify (text (snd ir))])
                    (indexed 0 messages)).
  { unfold newMessages. rewrite split_encode.
    - rewrite map_map. apply map_ext_in. intros [i r] I. cbn [fst snd].
      apply split_token.
      assert (Ir : In r messages).
      { clear - I. revert I. generalize 0.
        induction messages as [|x l IH]; intros n I; [contradiction|].
        destruct I as [E | I]; [injection E as _ ->; now left|].
        right. exact (IH _ I). }
      rewrite Forall_forall in H.
      now destruct (leaf_text_facts _ (H r Ir)) as [_ [_ S]].
    - exact Hne.
    - eapply Forall_impl; [|exact H]. intros r Hr.
      now destruct (leaf_text_facts _ Hr) as [_ [S _]]. }
  split; [exact E|]. now rewrite E, length_map, length_indexed.
Qed.

Lemma decode_inverts_encode_witness :
  newMessages (encode [mkLeaf "a" (JString "x/y"); mkLeaf "b" (JString "=")])
  = [["0"; quoted "x/y"]; ["1"; quoted "="]].
Proof.
  destruct (decode_inverts_encode
              [mkLeaf "a" (JString "x/y"); mkLeaf "b" (JString "=")])
    as [H _].
  - discriminate.
  - apply Forall_cons; [left; eexists; split; reflexivity|].
    apply Forall_cons; [left; eexists; split; reflexivity | apply Forall_nil].
  - exact H.
Defined.

(** ** Answers of the backend *)

Lemma split_batch (pairs : list (nat * json)) :
  pairs <> [] ->
  Forall (fun iv => leaf_text (snd iv)) pairs ->
  Str.split "//" (batch pairs)
  = map (fun iv : nat * json =>
           Str.of_nat (fst iv) ++ "==" ++ JSON.stringify (snd iv)) pairs.
Proof.
  intros Hne H. unfold Str.split, batch.
  apply split_join; [discriminate | | | apply Nat.le_refl].
  - destruct pairs; [congruence | discriminate].
  - intros t I. apply in_map_iff in I as [[i v] [<- I]]. cbn [fst snd].
    apply (sealed_cut "/"). apply (sealed_token i (mkLeaf "" v)). cbn [text].
    rewrite Forall_forall in H.
    now destruct (leaf_text_facts _ (H _ I)) as [_ [S _]].
Qed.

Lemma set_messages_pairs (messages : list LeafRecord)
    (pairs : list (nat * json)) :
  Forall (fun iv => leaf_text (snd iv)) pairs ->
  forall o,
    set_messages messages
      (map (Str.split "==")
           (map (fun iv : nat * json =>
                   Str.of_nat (fst iv) ++ "==" ++ JSON.stringify (snd iv))
                pairs)) o
    = apply_pairs messages pairs o.
Proof.
  induction 1 as [|[i v] rest Hv _ IH]; intro o; [reflexivity|].
  cbn [map set_messages apply_pairs fst snd] in *.
  destruct (leaf_text_facts _ Hv) as [P [_ S]].
  pose proof (split_token i (mkLeaf "" v) S) as X.
  unfold token in X. cbn [text] in X. rewrite X.
  unfold set_message. cbn [nth_error]. rewrite array_get_of_nat.
  destruct (nth_error messages i) as [r|]; [|reflexivity].
  rewrite P. apply IH.
Qed.

Lemma rebuild_batch (messages : list LeafRecord) (pairs : list (nat * json)) :
  pairs <> [] ->
  Forall (fun iv => leaf_text (snd iv)) pairs ->
  rebuild messages (batch pairs) = apply_pairs messages pairs [].
Proof.
  intros Hne H. unfold rebuild, newMessages.
  rewrite (split_batch pairs Hne H). now apply set_messages_pairs.
Qed.

(** The loop on a well-formed answer.  When the backend answers with
    tokens of the form index, ["=="], JSON literal, joined by ["//"], the
    values being strings or arrays of strings free of the separators, the
    loop is a plain left-to-right pass over the pairs of the answer: each
    pair sets its value at the path of the record its index names, on the
    object built so far, and the first pair whose index names no record
    ends the pass with a [TypeError].  The order is that of the answer, not
    of the records. *)
Theorem rebuild_applies_pairs
    (messages : list LeafRecord) (pairs : list (nat * json)) :
  pairs <> [] ->
  Forall (fun iv => leaf_text (snd iv)) pairs ->
  rebuild messages (batch pairs) = apply_pairs messages pairs [].
Proof.
  exact (rebuild_batch messages pairs).
Qed.

Lemma rebuild_applies_pairs_witness :
  rebuild [mkLeaf "a" (JString "x"); mkLeaf "b/c" (JString "y")]
    (batch [(1, JString "dois"); (0, JString "um"); (1, JString "two")])
  = Ok [("b", JObject [("c", JString "two")]); ("a", JString "um")].
Proof.
  rewrite (rebuild_applies_pairs
             [mkLeaf "a" (JString "x"); mkLeaf "b/c" (JString "y")]
             [(1, JString "dois"); (0, JString "um"); (1, JString "two")]).
  - reflexivity.
  - discriminate.
  - repeat (apply Forall_cons; [left; eexists; split; reflexivity|]).
    apply Forall_nil.
Defined.

(** *** Translated documents *)

Lemma apply_pairs_in_order (messages : list LeafRecord) (g : json -> json)
    (suf : list LeafRecord) :
  forall pre o,
    messages = (pre ++ suf)%list ->
    apply_pairs messages
      (indexed (List.length pre) (map (fun r => g (text r)) suf)) o
    = Ok (fold_left (fun acc r => ObjectManager_set (path r) (g (text r)) acc)
                    suf o).
Proof.
  induction suf as [|r suf IH]; intros pre o E; [reflexivity|].
  cbn [map indexed apply_pairs fold_left]. subst messages.
  rewrite nth_error_app2, Nat.sub_diag by apply Nat.le_refl. cbn [nth_error].
  specialize (IH (pre ++ [r])%list). rewrite length_app, Nat.add_1_r in IH.
  apply IH. now rewrite <- app_assoc.
Qed.

Lemma map_flat_map_leaves {A B C : Type} (f : A -> list B) (h : B -> C)
    (l : list A) :
  map h (flat_map f l) = flat_map (fun x => map h (f x)) l.
Proof.
  induction l as [|x l IH]; [reflexivity|]. cbn [flat_map].
  now rewrite map_app, IH.
Qed.

Lemma set_leaves_flat (es : object)
    (f : string * json -> list (list string * json))
    (h : string * json -> string * json) :
  distinct (map fst es) = true ->
  Forall (fun kv => fst (h kv) = fst kv /\
            forall o, obj_get (fst kv) o = None ->
              set_leaves (f kv) o = (o ++ [h kv])%list) es ->
  forall acc,
    (forall k, In k (map fst es) -> obj_get k acc = None) ->
    set_leaves (flat_map f es) acc = (acc ++ map h es)%list.
Proof.
  intros D H. induction H as [|kv r [Hk Hkv] _ IH]; intros acc Fresh.
  - cbn. now rewrite app_nil_r.
  - cbn [map] in D. apply distinct_cons in D as [N D].
    cbn [flat_map map]. rewrite set_leaves_app.
    rewrite Hkv by (apply Fresh; now left).
    rewrite (IH D).
    + now rewrite <- app_assoc.
    + intros k' I. destruct (h kv) as [hk hv] eqn:Eh. cbn [fst] in Hk.
      rewrite obj_get_last by (apply Fresh; now right).
      subst hk. destruct (String.eqb_spec (fst kv) k') as [<-|];
        [contradiction | reflexivity].
Qed.

(** Setting the translated leaves of a good value under a fresh key builds
    the value with its leaves translated, under that key. *)
Lemma set_leaves_entry_map (g : json -> json) (v : json) :
  value_ok v = true ->
  forall k o, obj_get k o = None ->
    set_leaves (map (fun cv : list string * json => (fst cv, g (snd cv)))
                    (leaves_entry k v)) o
    = (o ++ [(k, map_leaves g v)])%list.
Proof.
  induction v as [| | |s|items _|entries IH] using json_induction;
    intros V k o G; try discriminate.
  - cbn [value_ok] in V. apply andb_true_iff in V as [T _].
    cbn [leaves_entry]. rewrite T. cbn. now apply obj_set_fresh.
  - cbn [value_ok] in V. apply andb_true_iff in V as [N _].
    destruct items; [discriminate|]. cbn. now apply obj_set_fresh.
  - destruct (leaves_ok entries V) as [N L].
    destruct (value_ok_object _ V) as [_ [D F]].
    rewrite leaves_entry_object, map_map. cbn [fst snd].
    rewrite <- (map_map (fun cv : list string * json => (fst cv, g (snd cv)))
                  (fun cv : list string * json => (k :: fst cv, snd cv))).
    rewrite set_leaves_under_fresh; [| | |exact G].
    + cbn [map_leaves]. do 3 f_equal. unfold leaves.
      rewrite map_flat_map_leaves.
      rewrite (set_leaves_flat entries _
                 (fun kv : string * json =>
                    let (k0, x) := kv in (k0, map_leaves g x)) D);
        [reflexivity| |reflexivity].
      rewrite Forall_forall in *. intros [k1 v1] I. split; [reflexivity|].
      intros o1 G1. destruct (F _ I) as [_ V1]. exact (IH _ I V1 k1 o1 G1).
    + destruct (leaves entries); [congruence | discriminate].
    + rewrite Forall_map. eapply Forall_impl; [|exact L]. now intros cv [C _].
Qed.

(** From the translated texts, sent back in the order of the records, the
    rebuild gives the document with every leaf translated. *)
Lemma rebuild_translated (g : json -> json) (d : object) :
  document_ok d = true ->
  (forall v, leaf_text v -> leaf_text (g v)) ->
  rebuild (resolvePaths d None)
    (batch (indexed 0 (map (fun r => g (text r)) (resolvePaths d None))))
  = Ok (map (fun kv : string * json =>
               let (k, x) := kv in (k, map_leaves g x)) d).
Proof.
  intros V Hg. destruct (leaves_ok d V) as [N L].
  destruct (value_ok_object _ V) as [_ [D F]].
  rewrite rebuild_batch.
  - pose proof (apply_pairs_in_order (resolvePaths d None) g
                  (resolvePaths d None) [] [] eq_refl) as A.
    cbn [List.length app] in A. rewrite A. clear A. f_equal.
    rewrite resolvePaths_leaves.
    rewrite (fold_left_map_ext _
               (fun acc cv => set_keys (fst cv) (g (snd cv)) acc)).
    + transitivity
        (set_leaves (map (fun cv : list string * json => (fst cv, g (snd cv)))
                         (leaves d)) []).
      * symmetry. unfold set_leaves. now apply fold_left_map_ext.
      * unfold leaves. rewrite map_flat_map_leaves.
        rewrite (set_leaves_flat d _
                   (fun kv : string * json =>
                      let (k0, x) := kv in (k0, map_leaves g x)) D);
          [reflexivity| |reflexivity].
        eapply Forall_impl; [|exact F]. intros [k v] [_ V1].
        split; [reflexivity|]. intros o G. now apply set_leaves_entry_map.
    + intros [c x] acc I. cbn [path text fst snd]. unfold ObjectManager_set.
      rewrite Forall_forall in L. destruct (L _ I) as [C [K _]].
      now rewrite split_path_from.
  - rewrite resolvePaths_leaves, map_map.
    destruct (leaves d); [congruence | discriminate].
  - assert (G : Forall (fun v => leaf_text v)
                  (map (fun r => g (text r)) (resolvePaths d None))).
    { rewrite resolvePaths_leaves, map_map, Forall_map.
      eapply Forall_impl; [|exact L]. intros [c x] [_ [_ T]]. now apply Hg. }
    clear - G. revert G. generalize 0.
    induction (map (fun r => g (text r)) (resolvePaths d None)) as [|x l IH];
      intros n G; [constructor|].
    inversion G; subst. constructor; [assumption | now apply IH].
Qed.

(** When the backend answers, for every record and in the order of the
    records, with a translation of its text (a string or an array of
    strings free of the separators), the pipeline gives the document back
    with the same keys in the same order and the same nesting, every leaf
    replaced by its translation. *)
Theorem translation_keeps_shape
    (backend : string -> option string) (g : json -> json) (d : object) :
  document_ok d = true ->
  (forall v, leaf_text v -> leaf_text (g v)) ->
  backend (encode (resolvePaths d None))
  = Some (batch (indexed 0 (map (fun r => g (text r)) (resolvePaths d None)))) ->
  pipeline backend (JObject d)
  = Ok (map (fun kv : string * json =>
               let (k, x) := kv in (k, map_leaves g x)) d).
Proof.
  intros V Hg B. unfold pipeline, resolveMessages. cbn [Object_entries].
  rewrite B. now apply rebuild_translated.
Qed.

Lemma translation_keeps_shape_witness :
  pipeline (fun _ => Some (batch [(0, JString "ola"); (1, JString "ola")]))
    (JObject [("greeting", JString "hello");
              ("nested", JObject [("farewell", JArray [JString "bye"])])])
  = Ok [("greeting", JString "ola");
        ("nested", JObject [("farewell", JString "ola")])].
Proof.
  apply (translation_keeps_shape
           (fun _ => Some (batch [(0, JString "ola"); (1, JString "ola")]))
           (fun _ => JString "ola")
           [("greeting", JString "hello");
            ("nested", JObject [("farewell", JArray [JString "bye"])])]).
  - reflexivity.
  - intros v _. left. eexists. split; reflexivity.
  - reflexivity.
Defined.



(** ** Paths *)

Lemma keys_ok_object (es : object) :
  keys_ok (JObject es) = true ->
  distinct (map fst es) = true
  /\ Forall (fun kv => Str.truthy (fst kv) = true
                       /\ occurs "/" (fst kv) = false
                       /\ keys_ok (snd kv) = true) es.
Proof.
  cbn [keys_ok]. intro H. apply andb_true_iff in H as [D F].
  split; [exact D|]. rewrite forallb_forall in F. apply Forall_forall.
  intros [k x] I. specialize (F _ I).
  apply andb_true_iff in F as [F K]. apply andb_true_iff in F as [T S].
  apply negb_true_iff in S. now repeat split.
Qed.

Lemma keys_ok_slash_free (v : json) : keys_ok v = true -> slash_free v = true.
Proof.
  induction v as [| | |s|items _|entries IH] using json_induction;
    intro K; try reflexivity.
  destruct (keys_ok_object _ K) as [_ F].
  cbn [slash_free]. apply forallb_forall. intros [k x] I.
  rewrite Forall_forall in F, IH.
  destruct (F _ I) as [_ [S Kx]]. cbn [fst snd] in *.
  rewrite S. cbn. exact (IH _ I Kx).
Qed.

Lemma leaves_chains_NoDup (es : object) :
  distinct (map fst es) = true ->
  Forall (fun kv => NoDup (map fst (leaves_entry (fst kv) (snd kv)))) es ->
  NoDup (map fst (leaves es)).
Proof.
  intros D H. induction H as [|[k v] r Hkv _ IH]; [constructor|].
  cbn [map fst] in D. apply distinct_cons in D as [N D].
  unfold leaves. cbn [flat_map]. rewrite map_app. apply NoDup_app.
  - exact Hkv.
  - exact (IH D).
  - intros c I1 I2. apply in_map_iff in I1 as [cv1 [<- I1]].
    apply in_map_iff in I2 as [cv2 [E I2]].
    pose proof (leaves_entry_head k v) as H1. rewrite Forall_forall in H1.
    destruct (H1 _ I1) as [rest1 E1].
    pose proof (leaves_head r) as H2. rewrite Forall_forall in H2.
    destruct (H2 _ I2) as [k2 [rest2 [E2 I]]].
    rewrite E1, E2 in E. injection E as -> _. contradiction.
Qed.

Lemma leaves_entry_NoDup (v : json) :
  keys_ok v = true -> forall k, NoDup (map fst (leaves_entry k v)).
Proof.
  induction v as [| | |s|items _|entries IH] using json_induction;
    intros K k; cbn [leaves_entry]; try constructor.
  - destruct (Str.truthy s); repeat constructor. intros [].
  - destruct items; repeat constructor. intros [].
  - destruct (keys_ok_object _ K) as [D F]. rewrite map_map. cbn [fst].
    rewrite <- (map_map fst (cons k)).
    apply NoDup_map_NoDup_ForallPairs.
    + intros x y _ _ E. now injection E.
    + apply leaves_chains_NoDup; [exact D|].
      rewrite Forall_forall in *. intros [k1 v1] I.
      destruct (F _ I) as [_ [_ K1]]. exact (IH _ I K1 k1).
Qed.

(** No two records carry the same path, when at every depth the keys of a
    mapping are distinct, not empty and free of ["/"]: a path then names
    one leaf only, and no translation can land on another leaf. *)
Theorem record_paths_unique (d : object) :
  keys_ok (JObject d) = true ->
  NoDup (map path (resolvePaths d None)).
Proof.
  intro K. destruct (keys_ok_object _ K) as [D F].
  rewrite resolvePaths_leaves, map_map. cbn [path].
  rewrite <- (map_map fst (path_from None)).
  apply NoDup_map_NoDup_ForallPairs.
  - pose proof (split_recorded_paths d (keys_ok_slash_free _ K)) as S.
    assert (T : Forall (fun kv => Str.truthy (fst kv) = true) d)
      by (eapply Forall_impl; [|exact F]; now intros kv [T _]).
    specialize (S T). rewrite Forall_forall in S.
    intros x y Ix Iy E.
    apply in_map_iff in Ix as [cx [<- Ix]].
    apply in_map_iff in Iy as [cy [<- Iy]].
    now rewrite <- (S _ Ix), <- (S _ Iy), E.
  - apply leaves_chains_NoDup; [exact D|].
    eapply Forall_impl; [|exact F]. intros [k v] [_ [_ Kv]].
    now apply leaves_entry_NoDup.
Qed.

Lemma record_paths_unique_witness :
  NoDup (map path
           (resolvePaths [("a", JObject [("b", JString "x"); ("c", JString "y")]);
                          ("b", JString "z")] None)).
Proof.
  apply (record_paths_unique
           [("a", JObject [("b", JString "x"); ("c", JString "y")]);
            ("b", JString "z")]).
  reflexivity.
Defined.

(** ** What [JSON.parse] can return at the top *)



Lemma of_nat_truthy (n : nat) : Str.truthy (Str.of_nat n) = true.
Proof.
  destruct (Str.of_nat n) eqn:E; [|reflexivity].
  pose proof (array_index_of_nat n) as H. rewrite E in H. discriminate.
Qed.

Lemma contains_later_numerals (l : list json) :
  forall n m, m < n ->
    contains (map fst (map (fun iv : nat * json => (Str.of_nat (fst iv), snd iv))
                           (indexed n l))) (Str.of_nat m) = false.
Proof.
  induction l as [|x l IH]; intros n m L; [reflexivity|].
  cbn [indexed map fst contains existsb].
  fold (contains (map fst (map (fun iv : nat * json =>
                                  (Str.of_nat (fst iv), snd iv))
                               (indexed (S n) l))) (Str.of_nat m)).
  rewrite IH by lia. rewrite orb_false_r. apply String.eqb_neq.
  intro E. apply of_nat_inj in E. lia.
Qed.

Lemma keyed_strings_ok (strs : list string) :
  Forall (fun s => Str.truthy s = true /\ text_ok s = true) strs ->
  forall n,
    distinct (map fst (map (fun iv : nat * json => (Str.of_nat (fst iv), snd iv))
                           (indexed n (map JString strs)))) = true
    /\ forallb (fun kv : string * json =>
                  let (k, x) := kv in key_ok k && value_ok x)
               (map (fun iv : nat * json => (Str.of_nat (fst iv), snd iv))
                    (indexed n (map JString strs))) = true.
Proof.
  induction 1 as [|s strs [T X] _ IH]; intro n; [now split|].
  destruct (IH (S n)) as [D F].
  cbn [map indexed fst snd distinct forallb]. split.
  - rewrite D, andb_true_r. apply negb_true_iff.
    apply contains_later_numerals. lia.
  - rewrite F, andb_true_r. unfold key_ok. cbn [value_ok].
    rewrite of_nat_truthy, T, X. unfold Str.of_nat.
    now rewrite occurs_numeral.
Qed.

Lemma map_leaves_same (v : json) :
  map_leaves (fun x => x) v = v.
Proof.
  induction v as [| | |s|items _|entries IH] using json_induction;
    try reflexivity.
  cbn [map_leaves]. f_equal.
  induction IH as [|[k x] r H _ IHr]; [reflexivity|].
  cbn [map snd] in *. now rewrite H, IHr.
Qed.

Lemma indexed_map {A B : Type} (f : A -> B) (l : list A) (n : nat) :
  indexed n (map f l) = map (fun ix => (fst ix, f (snd ix))) (indexed n l).
Proof.
  revert n; induction l as [|x l IH]; intro n; [reflexivity|].
  cbn [map indexed fst snd]. now rewrite IH.
Qed.

Lemma encode_batch (messages : list LeafRecord) :
  encode messages = batch (indexed 0 (map text messages)).
Proof.
  unfold encode, batch. now rewrite indexed_map, map_map.
Qed.

(** With the records sent back unchanged, the rebuild gives the document
    back. *)
Lemma rebuild_document (d : object) :
  document_ok d = true ->
  rebuild (resolvePaths d None) (encode (resolvePaths d None)) = Ok d.
Proof.
  intro V. rewrite encode_batch.
  etransitivity;
    [exact (rebuild_translated (fun x => x) d V (fun v H => H))|].
  f_equal. rewrite <- (map_id d) at 2. apply map_ext.
  intros [k x]. now rewrite map_leaves_same.
Qed.

(** A JSON file whose top level is an array of strings does not come back
    as an array: [Object.entries] hands its items over under the numerals
    of their positions, and with a backend that gives the batch back
    unchanged the pipeline builds a mapping from these numerals to the
    items (none of them empty, none holding ["//"] or ["=="]). *)
Theorem top_level_array_becomes_mapping (strs : list string) :
  strs <> [] ->
  Forall (fun s => Str.truthy s = true /\ text_ok s = true) strs ->
  pipeline (fun message => Some message) (JArray (map JString strs))
  = Ok (map (fun iv : nat * json => (Str.of_nat (fst iv), snd iv))
            (indexed 0 (map JString strs))).
Proof.
  intros Hne H. unfold pipeline, resolveMessages. cbn [Object_entries].
  apply rebuild_document. unfold document_ok. cbn [value_ok].
  destruct (keyed_strings_ok strs H 0) as [D F]. rewrite D, F.
  now destruct strs.
Qed.

Lemma top_level_array_becomes_mapping_witness :
  pipeline (fun message => Some message) (JArray [JString "um"; JString "dois"])
  = Ok [("0", JString "um"); ("1", JString "dois")].
Proof.
  apply (top_level_array_becomes_mapping ["um"; "dois"]).
  - discriminate.
  - repeat constructor.
Defined.

(** ** Separators inside a text *)

Lemma cut_twice_scan (c : ascii) (s : string) :
  forall a b p,
    Str.cut (twice c) s = Some (a, b) ->
    (p = true -> prefix (once c) s = false) ->
    scan c p a = Some false.
Proof.
  induction s as [|x t IH]; intros a b p C Hp.
  - rewrite cut_empty in C. discriminate.
  - rewrite cut_unfold, prefix_twice in C. rewrite prefix_once in Hp.
    destruct (x =? c)%char eqn:E; cbn [andb] in C.
    + destruct p; [specialize (Hp eq_refl); discriminate|].
      destruct t as [|y t'].
      * rewrite cut_empty in C. discriminate.
      * destruct (y =? c)%char eqn:E'.
        -- injection C as <- <-. reflexivity.
        -- destruct (Str.cut (twice c) (String y t')) as [[a' b']|] eqn:C';
             [|discriminate].
           injection C as <- <-. cbn [scan]. rewrite E.
           apply (IH a' b' true eq_refl). intros _.
           now rewrite prefix_once.
    + destruct (Str.cut (twice c) t) as [[a' b']|] eqn:C'; [|discriminate].
      injection C as <- <-. cbn [scan]. rewrite E.
      apply (IH a' b' false eq_refl). discriminate.
Qed.

Lemma quote_chars_append (a b : string) :
  JSON.quote_chars (a ++ b) = JSON.quote_chars a ++ JSON.quote_chars b.
Proof.
  induction a as [|x a IH]; [reflexivity|].
  cbn [append JSON.quote_chars]. now rewrite IH, append_assoc.
Qed.

Lemma parse_chars_open (a : string) :
  JSON.parse_chars (JSON.quote_chars a) = None.
Proof.
  induction a as [|x a IH]; [reflexivity|]. cbn [JSON.quote_chars].
  now rewrite parse_quote_char, IH.
Qed.

(** A literal that has lost its closing quote is not JSON. *)
Lemma parse_open_literal (a : string) :
  JSON.parse (String Str.quote (JSON.quote_chars a)) = None.
Proof.
  unfold JSON.parse. now rewrite parse_value_quote, parse_chars_open.
Qed.

Lemma indexed_app {A : Type} (l1 l2 : list A) (n : nat) :
  indexed n (l1 ++ l2)%list
  = (indexed n l1 ++ indexed (n + List.length l1) l2)%list.
Proof.
  revert n; induction l1 as [|x l1 IH]; intro n; cbn [app indexed List.length].
  - now rewrite Nat.add_0_r.
  - now rewrite IH, Nat.add_succ_r.
Qed.

Lemma join_app_last (sep : string) (l1 : list string) (x : string)
    (l2 : list string) :
  Str.join sep (l1 ++ x :: l2)%list
  = Str.join sep (l1 ++ [Str.join sep (x :: l2)])%list.
Proof.
  induction l1 as [|t l1 IH]; [reflexivity|].
  destruct l1 as [|t' l1].
  - cbn [app]. destruct l2; reflexivity.
  - change ((t :: t' :: l1) ++ x :: l2)%list
      with (t :: (t' :: l1) ++ x :: l2)%list.
    change ((t :: t' :: l1) ++ [Str.join sep (x :: l2)])%list
      with (t :: (t' :: l1) ++ [Str.join sep (x :: l2)])%list.
    cbn [app] in *. rewrite !join_cons. now rewrite IH.
Qed.

(** After pieces that split cleanly, the next piece of the split is what
    stands in front of the first separator of the rest. *)
Lemma split_after_clean (sep : string) (clean : list string) (y : string) :
  sep <> "" ->
  Forall (fun t => forall b, Str.cut sep (t ++ sep ++ b) = Some (t, b)) clean ->
  forall fuel,
    String.length (Str.join sep (clean ++ [y])%list) <= fuel ->
    In (match Str.cut sep y with Some (a, _) => a | None => y end)
       (Str.split_fuel fuel sep (Str.join sep (clean ++ [y])%list)).
Proof.
  intros Hs H. induction H as [|t r Ht _ IH]; intros fuel L.
  - cbn [app] in *. change (Str.join sep [y]) with y in *.
    pose proof (split_fuel_head fuel sep y Hs L) as N.
    destruct (Str.split_fuel fuel sep y) as [|h l]; [discriminate|].
    injection N as ->. now left.
  - change ((t :: r) ++ [y])%list with (t :: (r ++ [y]))%list in *.
    assert (E : Str.join sep (t :: (r ++ [y]))
                = t ++ sep ++ Str.join sep (r ++ [y])%list)
      by (destruct r; reflexivity).
    rewrite E in *. rewrite !length_append in L.
    assert (0 < String.length sep) by (destruct sep; [congruence | simpl; lia]).
    destruct fuel as [|f]; [lia|]. cbn [Str.split_fuel]. rewrite Ht.
    right. apply IH. lia.
Qed.

Lemma cut_slashes (p : bool) (a b : string) :
  scan "/" p a = Some false -> Str.cut "//" (a ++ "//" ++ b) = Some (a, b).
Proof. exact (cut_twice "/" p a b). Qed.

Lemma cut_equals (p : bool) (a b : string) :
  scan "=" p a = Some false -> Str.cut "==" (a ++ "==" ++ b) = Some (a, b).
Proof. exact (cut_twice "=" p a b). Qed.

Lemma cut_equals_None (p : bool) (s : string) :
  scan "=" p s <> None -> Str.cut "==" s = None.
Proof. exact (cut_twice_None "=" p s). Qed.

Lemma second_piece (n q : string) :
  scan "=" false n = Some false ->
  nth_error (Str.split "==" (n ++ "==" ++ q)) 1
  = Some (match Str.cut "==" q with Some (v, _) => v | None => q end).
Proof.
  intro N. rewrite (split_second _ _ equals_nonempty).
  now rewrite (cut_equals false n q N).
Qed.

Lemma cut_open_literal (a a1 a2 r : string) :
  Str.cut "==" a = Some (a1, a2) ->
  Str.cut "==" (String Str.quote (JSON.quote_chars a ++ r))
  = Some (String Str.quote (JSON.quote_chars a1), JSON.quote_chars a2 ++ r).
Proof.
  intro C. pose proof (cut_Some _ _ _ _ C) as E.
  pose proof (cut_twice_scan "=" a a1 a2 false C ltac:(discriminate)) as S.
  subst a. rewrite !quote_chars_append, !append_assoc.
  change (JSON.quote_chars "==") with "==".
  change (String Str.quote (JSON.quote_chars a1 ++ "==" ++
                            JSON.quote_chars a2 ++ r))
    with (String Str.quote (JSON.quote_chars a1) ++ "==" ++
          JSON.quote_chars a2 ++ r).
  apply (cut_equals false). cbn [scan].
  change (Str.quote =? "=")%char with false. cbv iota.
  now rewrite (scan_quote_chars "=" scan_quote_char_equals).
Qed.

Lemma cut_closed_literal (a : string) :
  Str.cut "==" a = None ->
  Str.cut "==" (String Str.quote (JSON.quote_chars a)) = None.
Proof.
  intro C. apply (cut_equals_None false). cbn [scan].
  change (Str.quote =? "=")%char with false. cbv iota.
  rewrite (scan_quote_chars "=" scan_quote_char_equals).
  now apply cut_None_scan.
Qed.

(** The piece of the batch that starts the token of a string holding a
    separator carries, as its payload, a literal without its closing
    quote. *)
Lemma broken_piece (i : nat) (s tail : string) :
  text_ok s = false ->
  tail = "" \/ (exists m, tail = "//" ++ m) ->
  exists a,
    nth_error
      (Str.split "=="
         match Str.cut "//" ((Str.of_nat i ++ "==" ++ JSON.quote_string s)
                             ++ tail) with
         | Some (x, _) => x
         | None => (Str.of_nat i ++ "==" ++ JSON.quote_string s) ++ tail
         end) 1
    = Some (String Str.quote (JSON.quote_chars a)).
Proof.
  intros T Ht. pose proof (scan_numeral "=" i eq_refl) as NE.
  destruct (Str.cut "//" s) as [[a b]|] eqn:C.
  - (* the text holds a double slash *)
    pose proof (cut_Some _ _ _ _ C) as E.
    pose proof (cut_twice_scan "/" s a b false C ltac:(discriminate)) as S.
    assert (Y : (Str.of_nat i ++ "==" ++ JSON.quote_string s) ++ tail
                = (Str.of_nat i ++ "==" ++ String Str.quote (JSON.quote_chars a))
                  ++ "//"
                  ++ (JSON.quote_chars b ++ String Str.quote "" ++ tail)).
    { unfold JSON.quote_string. rewrite E, !quote_chars_append.
      change (JSON.quote_chars "//") with "//".
      repeat first [rewrite append_assoc | progress cbn [append]].
      reflexivity. }
    rewrite Y.
    rewrite (cut_slashes false).
    + rewrite (second_piece _ _ NE).
      destruct (Str.cut "==" a) as [[a1 a2]|] eqn:Ca.
      * exists a1.
        pose proof (cut_open_literal a a1 a2 "" Ca) as X.
        rewrite append_nil_r in X. now rewrite X.
      * exists a. now rewrite (cut_closed_literal a Ca).
    + rewrite !scan_append. unfold Str.of_nat.
      rewrite scan_absent by now apply occurs_numeral.
      cbn [append scan Ascii.eqb Bool.eqb].
      change (Str.quote =? "/")%char with false. cbv iota.
      now rewrite (scan_quote_chars "/" scan_quote_char_slash).
  - (* no double slash, so a doubled equals sign *)
    assert (Ce : exists a1 a2, Str.cut "==" s = Some (a1, a2)).
    { unfold text_ok, Str.includes in T. rewrite C in T. cbn in T.
      destruct (Str.cut "==" s) as [[a1 a2]|]; [now eexists; eexists|].
      discriminate. }
    destruct Ce as [a1 [a2 Ce]].
    assert (Sl : sealed "/" (Str.of_nat i ++ "==" ++ JSON.quote_string s)).
    { apply (sealed_token i (mkLeaf "" (JString s))). cbn [text].
      apply sealed_text; [apply scan_quote_char_slash | reflexivity|].
      apply (cut_None_scan "/"); [exact C | discriminate]. }
    destruct (sealed_cut "/" _ Sl) as [N1 N2].
    assert (H : match Str.cut "//" ((Str.of_nat i ++ "==" ++ JSON.quote_string s)
                                    ++ tail) with
                | Some (x, _) => x
                | None => (Str.of_nat i ++ "==" ++ JSON.quote_string s) ++ tail
                end = Str.of_nat i ++ "==" ++ JSON.quote_string s).
    { change (twice "/"%char) with "//" in N1, N2.
      destruct Ht as [-> | [m ->]].
      - rewrite append_nil_r. now rewrite N1.
      - now rewrite N2. }
    rewrite H, (second_piece _ _ NE). exists a1.
    unfold JSON.quote_string.
    now rewrite (cut_open_literal s a1 a2 _ Ce).
Qed.

(** A string that holds ["//"] or ["=="] breaks the translation of its
    file.  When the records in front of it are sound and the backend gives
    the batch back unchanged (the best a backend can do), the piece of the
    batch that starts the token of that string carries a literal without
    its closing quote, [JSON.parse] refuses it, and the rebuild fails
    whatever the other records are; [translateFile] ends in an error and
    writes nothing. *)
Theorem separator_in_text_breaks_translation
    (messages pre post : list LeafRecord) (p s : string) :
  messages = (pre ++ mkLeaf p (JString s) :: post)%list ->
  Forall (fun r => leaf_text (text r)) pre ->
  text_ok s = false ->
  (exists e, rebuild messages (encode messages) = Err e)
  /\ forall backend file w content data,
       readFile file w = Some content ->
       file_type file = Some "json" ->
       JSON.parse content = Some data ->
       resolveMessages data = Ok messages ->
       backend (encode messages) (target_language None (db w))
       = Some (encode messages) ->
       (exists e, snd (translateFile backend file w) = Err e)
       /\ files (fst (translateFile backend file w)) = files w.
Proof.
  intros M Hpre T.
  assert (E : exists e, rebuild messages (encode messages) = Err e).
  { destruct (rebuild messages (encode messages)) as [o|e] eqn:R;
      [|now exists e].
    exfalso. unfold rebuild, newMessages in R.
    apply set_messages_Ok_all in R. rewrite Forall_map, Forall_forall in R.
    set (toks := map (fun ir : nat * LeafRecord => token (fst ir) (snd ir))
                     (indexed (0 + List.length pre + 1) post)).
    set (tail := match toks with
                 | [] => ""
                 | _ :: _ => "//" ++ Str.join "//" toks
                 end).
    assert (Ht : tail = "" \/ exists m, tail = "//" ++ m).
    { unfold tail. destruct toks; [now left | right; now eexists]. }
    destruct (broken_piece (0 + List.length pre) s tail T Ht) as [a Ha].
    assert (Y : Str.join "//"
                  (token (0 + List.length pre) (mkLeaf p (JString s)) :: toks)
                = (Str.of_nat (0 + List.length pre) ++ "=="
                     ++ JSON.quote_string s) ++ tail).
    { unfold tail, token. cbn [text JSON.stringify].
      destruct toks; [now rewrite append_nil_r|].
      rewrite join_cons. now rewrite !append_assoc. }
    rewrite <- Y in Ha.
    assert (I : In match Str.cut "//"
                           (Str.join "//"
                              (token (0 + List.length pre)
                                 (mkLeaf p (JString s)) :: toks)) with
                   | Some (x, _) => x
                   | None => Str.join "//"
                               (token (0 + List.length pre)
                                  (mkLeaf p (JString s)) :: toks)
                   end
                (Str.split "//" (encode messages))).
    { unfold encode, Str.split. rewrite M, indexed_app, map_app.
      cbn [indexed map fst snd]. rewrite join_app_last.
      replace (S (0 + List.length pre)) with (0 + List.length pre + 1) by lia.
      fold toks.
      apply split_after_clean; [discriminate| |apply Nat.le_refl].
      apply Forall_forall. intros t It.
      apply in_map_iff in It as [[i r] [<- It]]. cbn [fst snd].
      apply (sealed_cut "/"). apply sealed_token.
      assert (Ir : In r pre).
      { clear - It. revert It. generalize 0.
        induction pre as [|x l IH]; intros n It; [contradiction|].
        destruct It as [E | It]; [injection E as _ ->; now left|].
        right. exact (IH _ It). }
      rewrite Forall_forall in Hpre.
      now destruct (leaf_text_facts _ (Hpre r Ir)) as [_ [S _]]. }
    destruct (R _ I) as [o1 [o2 H]].
    apply set_message_Ok in H as (i & v & n & r & parsed & _ & H1 & _ & _ & P & _).
    rewrite Ha in H1. injection H1 as <-.
    rewrite parse_open_literal in P. discriminate. }
  split; [exact E|].
  intros backend file w content data R Ty P Mg B. destruct E as [e E].
  destruct (translateFile_json_rebuild backend file w content data messages
              (encode messages) R Ty P Mg B e E) as [S F].
  split; [now exists e | exact F].
Qed.

Lemma separator_in_text_breaks_translation_witness :
  exists e,
    rebuild [mkLeaf "name" (JString "site"); mkLeaf "url" (JString "http://x");
             mkLeaf "n" (JArray [JNumber "1"])]
      (encode [mkLeaf "name" (JString "site");
               mkLeaf "url" (JString "http://x");
               mkLeaf "n" (JArray [JNumber "1"])])
    = Err e.
Proof.
  destruct (separator_in_text_breaks_translation
              [mkLeaf "name" (JString "site"); mkLeaf "url" (JString "http://x");
               mkLeaf "n" (JArray [JNumber "1"])]
              [mkLeaf "name" (JString "site")]
              [mkLeaf "n" (JArray [JNumber "1"])] "url" "http://x")
    as [H _].
  - reflexivity.
  - apply Forall_cons; [left; eexists; split; reflexivity | apply Forall_nil].
  - reflexivity.
  - exact H.
Defined.

(** ** Documents the extraction cannot tell apart *)

Lemma resolveEntry_empty_path (k : string) (v : json) :
  resolveEntry (Some "") k v = resolveEntry None k v.
Proof. destruct v; reflexivity. Qed.

(** The records do not tell a slash inside a key from nesting, nor an empty
    key at the top from no key at all: a value under the key made of [k1],
    a slash and [k2] gives the records of the same value under [k2] inside
    a mapping under [k1], and a mapping under the empty key gives the
    records of the mapping alone.  Whatever follows the extraction treats
    the two documents alike. *)
Theorem extraction_confuses_documents (k1 k2 : string) (v : json) (m : object) :
  (Str.truthy k1 = true ->
   resolvePaths [(k1 ++ "/" ++ k2, v)] None
   = resolvePaths [(k1, JObject [(k2, v)])] None)
  /\ resolvePaths [("", JObject m)] None = resolvePaths m None
  /\ (forall backend,
        pipeline backend (JObject [("", JObject m)])
        = pipeline backend (JObject m)).
Proof.
  assert (E : resolvePaths [("", JObject m)] None = resolvePaths m None).
  { unfold resolvePaths at 1. cbn [flat_map]. rewrite app_nil_r.
    rewrite resolveEntry_object. cbn [child_path].
    unfold resolvePaths. induction m as [|[k x] r IH]; [reflexivity|].
    cbn [flat_map]. now rewrite IH, resolveEntry_empty_path. }
  split; [|split].
  - intro T. unfold resolvePaths. cbn [flat_map]. rewrite !app_nil_r.
    rewrite (resolveEntry_object None k1). unfold resolvePaths.
    cbn [flat_map child_path]. rewrite app_nil_r.
    destruct v; cbn [resolveEntry child_path]; rewrite ?T; reflexivity.
  - exact E.
  - intro backend. unfold pipeline, resolveMessages. cbn [Object_entries].
    now rewrite E.
Qed.

Lemma extraction_confuses_documents_witness :
  resolvePaths [("menu/title", JString "Home")] None
  = resolvePaths [("menu", JObject [("title", JString "Home")])] None.
Proof.
  destruct (extraction_confuses_documents "menu" "title" (JString "Home") [])
    as [H _].
  apply H. reflexivity.
Defined.
